(** * Less-than oracles: a shallow embedding of the Python sources

    Sources embedded here:
    - [code_oracle.py]                         (module [code_oracle])
    - [.../linear_mc_gate.py]                  (module [linear_mc_gate])
    - [.../functions_oracles.py]               (module [functions_oracles])

    Python values are modelled as follows: [int] is [Z], [str] is
    [list ascii], [None]-or-value is [option], a function that may print
    and may raise returns in the monad [py] (printed lines plus either an
    exception or a value).  A Qiskit [QuantumCircuit] is a record holding
    its width, its name and its instruction list; builder methods that
    mutate the circuit in place are state-passing functions returning the
    extended circuit. *)

From Stdlib Require Import ZArith List Bool Ascii String Lia QArith Qcanon.
From Stdlib Require Import Permutation Sorted DecimalString.
Import ListNotations.
Local Open Scope Z_scope.

(* ================================================================== *)
(** ** Python prelude *)

Module Py.

Inductive exn : Type :=
| TypeError
| IndexError
| AttributeError
| ValueError
| LinAlgError
| CircuitError.

Inductive result (A : Type) : Type :=
| Ok (a : A)
| Raise (e : exn).
Arguments Ok {A} a.
Arguments Raise {A} e.

Definition str := list ascii.

(** A computation prints lines to stdout and then returns or raises. *)
Definition py (A : Type) : Type := (list str * result A)%type.

Definition ret {A} (a : A) : py A := ([], Ok a).
Definition raise {A} (e : exn) : py A := ([], Raise e).
Definition print (line : str) : py unit := ([line], Ok tt).

Definition bind {A B} (m : py A) (f : A -> py B) : py B :=
  match m with
  | (out, Ok a) => let '(out', r) := f a in (out ++ out', r)
  | (out, Raise e) => (out, Raise e)
  end.

(** A [for] loop whose body updates one piece of state. *)
Fixpoint for_each {A S} (xs : list A) (body : A -> S -> py S) (s : S) : py S :=
  match xs with
  | [] => ret s
  | x :: xs' => bind (body x s) (for_each xs' body)
  end.

Definition lit (s : string) : str := list_ascii_of_string s.

(** ['%d' % z] *)
Definition fmt_d (z : Z) : str := lit (NilZero.string_of_int (Z.to_int z)).

(** Binary digits of a positive number, most significant first. *)
Fixpoint digits (p : positive) : str :=
  match p with
  | xH => ["1"%char]
  | xO p' => digits p' ++ ["0"%char]
  | xI p' => digits p' ++ ["1"%char]
  end.

(** [bin(z)] *)
Definition bin (z : Z) : str :=
  match z with
  | Z0 => lit "0b0"
  | Zpos p => lit "0b" ++ digits p
  | Zneg p => lit "-0b" ++ digits p
  end.

(** [s[k:]] for a non-negative literal [k] *)
Definition slice_from (k : nat) (s : str) : str := skipn k s.

(** [len(s)] *)
Definition len {A} (l : list A) : Z := Z.of_nat (List.length l).

(** [c * k] for a one-character string [c]; empty when [k <= 0]. *)
Definition str_mul (c : ascii) (k : Z) : str := repeat c (Z.to_nat k).

Fixpoint lstrip (c : ascii) (s : str) : str :=
  match s with
  | [] => []
  | a :: s' => if Ascii.eqb a c then lstrip c s' else s
  end.

(** [s.rstrip(c)] for a one-character [c] *)
Definition rstrip (c : ascii) (s : str) : str := rev (lstrip c (rev s)).

(** [s[0]] *)
Definition first_char (s : str) : py ascii :=
  match s with
  | [] => raise IndexError
  | a :: _ => ret a
  end.

(** [enumerate(xs)] *)
Fixpoint enumerate_from {A} (i : Z) (xs : list A) : list (Z * A) :=
  match xs with
  | [] => []
  | x :: xs' => (i, x) :: enumerate_from (i + 1) xs'
  end.
Definition enumerate {A} (xs : list A) : list (Z * A) := enumerate_from 0 xs.

(** [len(range(start, stop, step))] for [step <> 0] *)
Definition range_len (start stop step : Z) : Z :=
  if 0 <? step then
    (if start <? stop then (stop - start - 1) / step + 1 else 0)
  else
    (if stop <? start then (start - stop - 1) / (- step) + 1 else 0).

(** [list(range(start, stop, step))] *)
Definition range3 (start stop step : Z) : list Z :=
  map (fun i => start + Z.of_nat i * step)
      (seq 0 (Z.to_nat (range_len start stop step))).
Definition range2 (start stop : Z) : list Z := range3 start stop 1.
Definition range (stop : Z) : list Z := range3 0 stop 1.

(** [xs.sort(key=key, reverse=reverse)]: stable; with [reverse] the
    order is descending and equal keys still keep their original
    relative order. *)
Section Sort.
Context {A : Type} (key : A -> Z) (reverse : bool).

Definition before (a b : A) : bool :=
  if reverse then key b <=? key a else key a <=? key b.

Fixpoint insert (x : A) (l : list A) : list A :=
  match l with
  | [] => [x]
  | y :: l' => if before x y then x :: y :: l' else y :: insert x l'
  end.

Fixpoint sort (l : list A) : list A :=
  match l with
  | [] => []
  | x :: l' => insert x (sort l')
  end.
End Sort.

(** [2 ** e] : an [int] for [e >= 0], the float [1/2**-e] otherwise;
    both are exact rationals. *)
Definition pow2 (e : Z) : Q := Qpower (2 # 1) e.

End Py.

Notation "x <- m ;; k" := (Py.bind m (fun x => k))
  (at level 61, m at next level, right associativity).
Notation "m ;;; k" := (Py.bind m (fun _ => k))
  (at level 61, right associativity).

(* ================================================================== *)
(** ** The circuit library (Qiskit), as far as the sources use it *)

Module qiskit.
Import Py.

(** Entries of a [numpy] matrix: exact complex rationals. *)
Record complex : Type := Complex { re : Q; im : Q }.
Definition real (z : Z) : complex := Complex (inject_Z z) (inject_Z 0).

Definition cplus (u v : complex) : complex :=
  Complex (re u + re v)%Q (im u + im v)%Q.
Definition cminus (u v : complex) : complex :=
  Complex (re u - re v)%Q (im u - im v)%Q.
Definition cmult (u v : complex) : complex :=
  Complex (re u * re v - im u * im v)%Q (re u * im v + im u * re v)%Q.
Definition conj (u : complex) : complex := Complex (re u) (- im u)%Q.
Definition ceqb (u v : complex) : bool :=
  Qeq_bool (re u) (re v) && Qeq_bool (im u) (im v).

(** The single-qubit matrices the sources pass around: a 2x2 array
    [np.array([[a00, a01], [a10, a11]])], as the docstrings of
    linear_mc_gate.py require ("np.array 2x2").  Arrays of another
    shape are no values of this type. *)
Record ndarray : Type := array { a00 : complex; a01 : complex;
                                 a10 : complex; a11 : complex }.

(** [U] is unitary: the product of its conjugate transpose with [U] is
    the identity. *)
Definition is_unitary (U : ndarray) : bool :=
  ceqb (cplus (cmult (conj (a00 U)) (a00 U)) (cmult (conj (a10 U)) (a10 U)))
       (real 1)
  && ceqb (cplus (cmult (conj (a00 U)) (a01 U)) (cmult (conj (a10 U)) (a11 U)))
          (real 0)
  && ceqb (cplus (cmult (conj (a01 U)) (a00 U)) (cmult (conj (a11 U)) (a10 U)))
          (real 0)
  && ceqb (cplus (cmult (conj (a01 U)) (a01 U)) (cmult (conj (a11 U)) (a11 U)))
          (real 1).

(** [U] has no inverse: its determinant is zero. *)
Definition is_singular (U : ndarray) : bool :=
  ceqb (cminus (cmult (a00 U) (a11 U)) (cmult (a01 U) (a10 U))) (real 0).

(** The matrix [_gate_U_pow] hands to [circuit.unitary]: the
    [1/|denominator_exponent|]-th root of [Ugate] through its
    eigendecomposition, inverted when [inv].  The floating-point
    linear algebra is kept symbolic. *)
Inductive unitary : Type :=
| U_pow (Ugate : ndarray) (denominator_exponent : Q) (inv : bool).

(** The root built from the eigenvalues and eigenvectors of [Ugate] is
    singular when [Ugate] is, and unitary when [Ugate] is. *)
Definition root_is_singular (u : unitary) : bool :=
  match u with U_pow Ugate _ _ => is_singular Ugate end.
Definition root_is_unitary (u : unitary) : bool :=
  match u with U_pow Ugate _ _ => is_unitary Ugate end.

(** Rotation angles [np.pi/param_turn] and [-np.pi/param_turn], kept
    symbolic with [param_turn] exact.  Python takes the quotient in
    floating point, which is defined while [param_turn < 2**1024]; the
    ladders of [_build_Q_gates] stay below it up to 1025 wires, and they
    are described up to that size. *)
Inductive angle : Type :=
| pi_over (param_turn : Q)
| neg_pi_over (param_turn : Q).

#[warnings="-register-all"]
Inductive operation : Type :=
| XGate
| ZGate
| HGate
| MCXGate (num_ctrl_qubits : Z)
| UnitaryGate (u : unitary)
| CRXGate (theta : angle)
| Diagonal (diag : list Z)
| ControlledGate (num_ctrl_qubits : Z) (base : operation)
| Gate (name : option str) (num_qubits : Z)
       (definition : list (operation * list Z)).

(** An instruction: an operation and the wires it acts on. *)
Definition instruction : Type := (operation * list Z)%type.

Record QuantumCircuit : Type := mkCircuit {
  num_qubits : Z;
  name : option str;
  data : list instruction
}.

(** The circuit with [more] appended to its instruction list. *)
Definition extend (c : QuantumCircuit) (more : list instruction) : QuantumCircuit :=
  mkCircuit (num_qubits c) (name c) (data c ++ more).

(** [QuantumCircuit(n, name=name)] *)
Definition new_circuit (n : Z) (name : option str) : py QuantumCircuit :=
  if n <? 0 then raise CircuitError else ret (mkCircuit n name []).

(** [MCXGate(num_ctrl_qubits)]: a controlled gate has at least one
    control. *)
Definition new_mcx (num_ctrl_qubits : Z) : py operation :=
  if num_ctrl_qubits <? 1 then raise CircuitError
  else ret (MCXGate num_ctrl_qubits).

(** Number of wires an operation acts on. *)
Fixpoint width (op : operation) : Z :=
  match op with
  | XGate | ZGate | HGate | UnitaryGate _ => 1
  | MCXGate k => k + 1
  | CRXGate _ => 2
  | Diagonal d => Z.log2 (len d)
  | ControlledGate k base => k + width base
  | Gate _ n _ => n
  end.

(** An integer wire specifier indexes the circuit's qubit list the
    way Python indexes a list: negative values count from the end. *)
Definition resolve (n q : Z) : py Z :=
  if (0 <=? q) && (q <? n) then ret q
  else if (- n <=? q) && (q <? 0) then ret (q + n)
  else raise CircuitError.

Fixpoint resolve_all (n : Z) (qs : list Z) : py (list Z) :=
  match qs with
  | [] => ret []
  | q :: qs' =>
      r <- resolve n q ;;
      rs <- resolve_all n qs' ;;
      ret (r :: rs)
  end.

Fixpoint distinct (qs : list Z) : bool :=
  match qs with
  | [] => true
  | q :: qs' => negb (existsb (Z.eqb q) qs') && distinct qs'
  end.

(** [circuit.append(op, qargs)] *)
Definition append (circuit : QuantumCircuit) (op : operation) (qargs : list Z)
  : py QuantumCircuit :=
  if negb (len qargs =? width op) then raise CircuitError else
  qs <- resolve_all (num_qubits circuit) qargs ;;
  if negb (distinct qs) then raise CircuitError else
  ret (extend circuit [(op, qs)]).

Definition x (circuit : QuantumCircuit) (q : Z) := append circuit XGate [q].
Definition z (circuit : QuantumCircuit) (q : Z) := append circuit ZGate [q].
Definition h (circuit : QuantumCircuit) (q : Z) := append circuit HGate [q].
(** [circuit.unitary(obj, q)] refuses a matrix that is not unitary. *)
Definition unitary_ (circuit : QuantumCircuit) (u : unitary) (q : Z) :=
  if negb (root_is_unitary u) then raise ValueError else
  append circuit (UnitaryGate u) [q].
Definition crx (circuit : QuantumCircuit) (theta : angle)
           (control_qubit target_qubit : Z) :=
  append circuit (CRXGate theta) [control_qubit; target_qubit].

(** [circuit.to_gate()] *)
Definition to_gate (circuit : QuantumCircuit) : operation :=
  Gate (name circuit) (num_qubits circuit) (data circuit).

(** [circuit.append(other, qargs)] with a circuit for [other] first
    turns it into one instruction, [other.to_instruction()]. *)
Definition to_instruction (circuit : QuantumCircuit) : operation :=
  Gate (name circuit) (num_qubits circuit) (data circuit).

(** [circuit.control(k)]: a circuit of [k] more wires holding the one
    controlled gate, controls first. *)
Definition control (circuit : QuantumCircuit) (k : Z) : QuantumCircuit :=
  mkCircuit (k + num_qubits circuit)
            (option_map (fun s => lit "c_" ++ s) (name circuit))
            [(ControlledGate k (to_gate circuit), range (k + num_qubits circuit))].

(** Wire [i] of a sub-circuit placed on [qubits]. *)
Definition place (qubits : list Z) (i : Z) : Z := nth (Z.to_nat i) qubits 0.

Definition remap (qubits : list Z) (ins : instruction) : instruction :=
  (fst ins, map (place qubits) (snd ins)).

(** [circuit.compose(other, qubits, inplace=True)]: the instructions
    of [other] are inlined, wire [i] of [other] going to [qubits[i]]. *)
Definition compose (circuit other : QuantumCircuit) (qubits : list Z)
  : py QuantumCircuit :=
  if negb (len qubits =? num_qubits other) then raise CircuitError else
  qs <- resolve_all (num_qubits circuit) qubits ;;
  if negb (distinct qs) then raise CircuitError else
  ret (extend circuit (map (remap qs) (data other))).

(** [Diagonal(v)]: the vector length must be a positive power of two. *)
Definition new_diagonal (v : list Z) : py operation :=
  if (1 <=? Z.log2 (len v)) && (len v =? 2 ^ Z.log2 (len v))
  then ret (Diagonal v) else raise CircuitError.

End qiskit.

(* ================================================================== *)
(** ** linear_mc_gate.py *)

Module linear_mc_gate.
Import Py qiskit.

(** ['%d' % q] truncates a float towards zero. *)
Definition fmt_d_num (q : Q) : str := fmt_d (Z.quot (Qnum q) (Zpos (Qden q))).

Definition _gate_U_pow (Ugate : ndarray) (denominator_exponent : Q) (inv : bool)
  : py QuantumCircuit :=
  let gate := U_pow Ugate denominator_exponent inv in
  name <- (if inv then
             (* np.linalg.inv(gate) *)
             if root_is_singular gate then raise LinAlgError
             else ret (lit "Udg^1/" ++ fmt_d_num denominator_exponent)
           else ret (lit "U^1/" ++ fmt_d_num denominator_exponent)) ;;
  gate_circuit <- new_circuit 1 (Some name) ;;
  unitary_ gate_circuit gate 0.

Definition _build_P_gates (gate : ndarray) (nqubits : Z)
           (circuit : QuantumCircuit) (inv : bool) : py QuantumCircuit :=
  let controls := if inv then range2 1 (nqubits - 1)
                  else range3 (nqubits - 2) 0 (-1) in
  for_each controls (fun k circuit =>
    let exponent := pow2 (nqubits - 1 - k) in
    gateU <- _gate_U_pow gate exponent inv ;;
    compose circuit (control gateU 1) [k; nqubits - 1]) circuit.

Record qpairs : Type := mk_qpairs { control_ : Z; target_ : Z }.

Definition _build_Q_gates (nqubits : Z) (circuit : QuantumCircuit) (inv : bool)
  : py QuantumCircuit :=
  let start := if inv then 1 else 0 in
  let qubit_pairs :=
    flat_map (fun target =>
                map (fun control => mk_qpairs control target) (range2 start target))
             (range nqubits) in
  let qubit_pairs := sort (fun k => control_ k + target_ k) true qubit_pairs in
  circuit <- for_each qubit_pairs (fun pair circuit =>
    let exponent := target_ pair - control_ pair in
    let exponent := if control_ pair =? 0 then exponent - 1 else exponent in
    let param_turn := pow2 exponent in
    crx circuit (pi_over param_turn) (control_ pair) (target_ pair)) circuit ;;
  let start := if inv then 0 else 1 in
  let qubit_pairs :=
    flat_map (fun target =>
                map (fun control => mk_qpairs control target) (range2 start target))
             (range nqubits) in
  let qubit_pairs := sort (fun k => control_ k + target_ k) false qubit_pairs in
  for_each qubit_pairs (fun pair circuit =>
    let exponent := target_ pair - control_ pair in
    let exponent := if control_ pair =? 0 then exponent - 1 else exponent in
    let param_turn := pow2 exponent in
    crx circuit (neg_pi_over param_turn) (control_ pair) (target_ pair)) circuit.

Definition linear_mc_gate (gate : ndarray) (circuit : QuantumCircuit)
           (controls : list Z) (target : Z) : py QuantumCircuit :=
  let nqubits := len controls + 1 in
  gate_circuit <- new_circuit nqubits (Some (lit "MC_T" ++ fmt_d target)) ;;
  gate_circuit <- _build_P_gates gate nqubits gate_circuit false ;;
  let exponent := pow2 (nqubits - 2) in
  gateU <- _gate_U_pow gate exponent false ;;
  gate_circuit <- compose gate_circuit (control gateU 1) [0; target] ;;
  gate_circuit <- _build_Q_gates (nqubits - 1) gate_circuit false ;;
  gate_circuit <- _build_P_gates gate nqubits gate_circuit true ;;
  gate_circuit <- _build_Q_gates (nqubits - 1) gate_circuit true ;;
  compose circuit gate_circuit (controls ++ [target]).

(** *** Calling [linear_mc_gate] with keyword arguments

    Python binds keyword arguments by parameter name and raises
    [TypeError] for a keyword that is no parameter of the function or
    for a parameter left without a value. *)
Inductive value : Type :=
| VArray (a : ndarray)
| VCircuit (c : QuantumCircuit)
| VList (l : list Z)
| VInt (i : Z).

Definition parameters : list string :=
  ["gate"; "circuit"; "controls"; "target"]%string.

Fixpoint lookup (k : string) (kwargs : list (string * value)) : option value :=
  match kwargs with
  | [] => None
  | (k', v) :: rest => if String.eqb k k' then Some v else lookup k rest
  end.

Definition linear_mc_gate_kw (kwargs : list (string * value)) : py QuantumCircuit :=
  if negb (forallb (fun kv => existsb (String.eqb (fst kv)) parameters) kwargs)
  then raise TypeError
  else
    match lookup "gate" kwargs, lookup "circuit" kwargs,
          lookup "controls" kwargs, lookup "target" kwargs with
    | Some (VArray gate), Some (VCircuit circuit),
      Some (VList controls), Some (VInt target) =>
        linear_mc_gate gate circuit controls target
    | _, _, _, _ => raise TypeError
    end.

End linear_mc_gate.

(* ================================================================== *)
(** ** The oracle builders *)

(** [to_binary] is defined identically in [code_oracle.py] and in
    [functions_oracles.py]. *)
Module utilities.
Import Py.

Definition to_binary (number : Z) (nbits : option Z) : py (option str) :=
  match nbits with
  | None => ret (Some (slice_from 2 (bin number)))
  | Some nbits =>
      let binary := slice_from 2 (bin number) in
      if nbits <? len binary then
        print (lit "Error, nbits must be larger than " ++ fmt_d (len binary)
               ++ lit ".") ;;;
        ret None
      else
        ret (Some (str_mul "0" (nbits - len binary) ++ binary))
  end.

End utilities.

(** [oracle_less_than] has the same body in both files; the files differ
    in the [multi_control_z] it calls. *)
Section OracleLessThan.
Import Py qiskit utilities.

Variable multi_control_z : Z -> py QuantumCircuit.

(** [if name:] *)
Definition truthy (name : option str) : bool :=
  match name with
  | None | Some [] => false
  | Some (_ :: _) => true
  end.

Definition oracle_less_than_body (number nqubits : Z) (name : option str)
  : py QuantumCircuit :=
  circuit <- (if truthy name then new_circuit nqubits name
              else new_circuit nqubits
                     (Some (lit " < " ++ fmt_d number ++ lit " "))) ;;
  num_binary <- to_binary number (Some nqubits) ;;
  num_binary <- match num_binary with
                | None => raise AttributeError
                | Some s => ret (rstrip "0" s)
                end ;;
  first <- first_char num_binary ;;
  circuit <- (if Ascii.eqb first "1" then
                circuit <- x circuit (nqubits - 1) ;;
                circuit <- z circuit (nqubits - 1) ;;
                x circuit (nqubits - 1)
              else
                x circuit (nqubits - 1)) ;;
  circuit <- for_each (enumerate (slice_from 1 num_binary))
    (fun '(position1, value) circuit =>
       let position := position1 + 1 in
       if Ascii.eqb value "0" then
         x circuit (nqubits - position - 1)
       else
         circuit <- x circuit (nqubits - position - 1) ;;
         multi_z <- multi_control_z (position + 1) ;;
         circuit <- append circuit (to_gate multi_z)
                      (range3 (nqubits - 1) (nqubits - position - 2) (-1)) ;;
         x circuit (nqubits - position - 1)) circuit ;;
  circuit <- for_each (enumerate num_binary)
    (fun '(position, value) circuit =>
       if Ascii.eqb value "0" then
         x circuit (nqubits - position - 1)
       else
         ret circuit) circuit ;;
  ret circuit.

End OracleLessThan.

(** *** code_oracle.py *)
Module code_oracle.
Import Py qiskit.

Definition to_binary := utilities.to_binary.

Definition multi_control_z (nqubits : Z) : py QuantumCircuit :=
  circuit <- new_circuit nqubits
               (Some (lit " CZ (" ++ fmt_d nqubits ++ lit ")")) ;;
  circuit <- h circuit (nqubits - 1) ;;
  gate <- new_mcx (nqubits - 1) ;;
  circuit <- append circuit gate (range nqubits) ;;
  circuit <- h circuit (nqubits - 1) ;;
  ret circuit.

Definition oracle_less_than (number nqubits : Z) (name : option str)
  : py QuantumCircuit :=
  oracle_less_than_body multi_control_z number nqubits name.

End code_oracle.

(** *** functions_oracles.py *)
Module functions_oracles.
Import Py qiskit linear_mc_gate.

Definition to_binary := utilities.to_binary.

Definition multi_control_z (nqubits : Z) : py QuantumCircuit :=
  circuit <- new_circuit nqubits
               (Some (lit " CZ (" ++ fmt_d nqubits ++ lit ")")) ;;
  let xgate := array (real 1) (real 0) (real 0) (real (-1)) in
  let controls := range (nqubits - 1) in
  let target := nqubits - 1 in
  linear_mc_gate_kw [("gate", VArray xgate); ("circuit", VCircuit circuit);
                     ("controls", VList controls); ("targ", VInt target)]%string.

Definition oracle_less_than (number nqubits : Z) (name : option str)
  : py QuantumCircuit :=
  oracle_less_than_body multi_control_z number nqubits name.

Definition oracle_greater_than (number nqubits : Z) (name : option str)
  : py QuantumCircuit :=
  let name := match name with
              | None => lit " > " ++ fmt_d number
              | Some name => name
              end in
  circuit <- oracle_less_than (number + 1) nqubits (Some name) ;;
  circuit <- z circuit 0 ;;
  circuit <- x circuit 0 ;;
  circuit <- z circuit 0 ;;
  circuit <- x circuit 0 ;;
  ret circuit.

Definition oracle_interval (lower_boundary upper_boundary nqubits : Z)
           (name : option str) : py QuantumCircuit :=
  let name := match name with
              | None => lit "(" ++ fmt_d lower_boundary ++ lit ","
                        ++ fmt_d upper_boundary ++ lit ")"
              | Some name => name
              end in
  circuit <- new_circuit nqubits (Some name) ;;
  less <- oracle_less_than upper_boundary nqubits None ;;
  circuit <- append circuit (to_instruction less) (range nqubits) ;;
  greater <- oracle_greater_than lower_boundary nqubits None ;;
  circuit <- append circuit (to_instruction greater) (range nqubits) ;;
  circuit <- z circuit 0 ;;
  circuit <- x circuit 0 ;;
  circuit <- z circuit 0 ;;
  circuit <- x circuit 0 ;;
  ret circuit.

(** [[-1]*number + [1]*(N-number)]; a list times a non-positive count
    is empty. *)
Definition array_less_than (number N : Z) : list Z :=
  repeat (-1) (Z.to_nat number) ++ repeat 1 (Z.to_nat (N - number)).

(** [2**nqubits] is a float for negative [nqubits], and a list cannot
    be multiplied by a float. *)
Definition diagonal_oracle_less_than (number nqubits : Z) (name : option str)
  : py QuantumCircuit :=
  v <- (if nqubits <? 0 then raise TypeError
        else ret (array_less_than number (2 ^ nqubits))) ;;
  diag_gate <- new_diagonal v ;;
  diagonal <- new_circuit nqubits name ;;
  diagonal <- append diagonal diag_gate (range nqubits) ;;
  ret diagonal.

End functions_oracles.

(* ================================================================== *)
(** ** Exact semantics of the gates the less-than oracle is made of

    Amplitudes live in Q(sqrt 2), which holds every amplitude an X, Z, H
    or multi-controlled X gate can produce from a basis state.  A state
    vector maps a basis index to its amplitude; wire [q] of the circuit
    is bit [q] of the index (Qiskit's little-endian convention). *)

Module semantics.
Import Py qiskit.

(** [rat + irr * sqrt 2] *)
Record amp : Type := mk_amp { rat : Qc; irr : Qc }.

Definition azero : amp := mk_amp 0%Qc 0%Qc.
Definition aone : amp := mk_amp 1%Qc 0%Qc.
Definition aadd (a b : amp) : amp :=
  mk_amp (rat a + rat b)%Qc (irr a + irr b)%Qc.
Definition aopp (a : amp) : amp := mk_amp (- rat a)%Qc (- irr a)%Qc.
Definition amul (a b : amp) : amp :=
  mk_amp (rat a * rat b + (1 + 1) * (irr a * irr b))%Qc
         (rat a * irr b + irr a * rat b)%Qc.
Definition of_Z (k : Z) : amp := mk_amp (Q2Qc (inject_Z k)) 0%Qc.

(** [1 / sqrt 2 = (1/2) * sqrt 2] *)
Definition rsqrt2 : amp := mk_amp 0%Qc (/ (1 + 1))%Qc.

Definition state : Type := Z -> amp.

(** The basis state [|y>]. *)
Definition basis (y : Z) : state := fun x => if x =? y then aone else azero.

(** The index with bit [q] flipped. *)
Definition flip (x q : Z) : Z := Z.lxor x (Z.shiftl 1 q).

(** Row of a diagonal gate selected by the bits of [x] on [qargs],
    first wire least significant. *)
Fixpoint index_on (qargs : list Z) (x : Z) : Z :=
  match qargs with
  | [] => 0
  | q :: qargs' => Z.b2z (Z.testbit x q) + 2 * index_on qargs' x
  end.

(** One instruction applied to a state vector; [None] for the gates
    whose matrices are floating-point data. *)
Fixpoint apply (op : operation) (qargs : list Z) (psi : state) : option state :=
  match op, qargs with
  | XGate, [q] => Some (fun x => psi (flip x q))
  | ZGate, [q] => Some (fun x => if Z.testbit x q then aopp (psi x) else psi x)
  | HGate, [q] =>
      Some (fun x => amul rsqrt2
                       (if Z.testbit x q
                        then aadd (psi (flip x q)) (aopp (psi x))
                        else aadd (psi x) (psi (flip x q))))
  | MCXGate _, _ :: _ =>
      let controls := removelast qargs in
      let target := last qargs 0 in
      Some (fun x => if forallb (Z.testbit x) controls
                     then psi (flip x target) else psi x)
  | Diagonal diag, _ =>
      Some (fun x => amul (of_Z (nth (Z.to_nat (index_on qargs x)) diag 0)) (psi x))
  | Gate _ _ definition, _ =>
      (fix run_definition (l : list (operation * list Z)) (psi : state)
         : option state :=
         match l with
         | [] => Some psi
         | (op', qargs') :: l' =>
             match apply op' (map (place qargs) qargs') psi with
             | Some psi' => run_definition l' psi'
             | None => None
             end
         end) definition psi
  | _, _ => None
  end.

(** A whole instruction list, first instruction first. *)
Fixpoint run (l : list instruction) (psi : state) : option state :=
  match l with
  | [] => Some psi
  | (op, qargs) :: l' =>
      match apply op qargs psi with
      | Some psi' => run l' psi'
      | None => None
      end
  end.

(** The phase a less-than oracle for [N] must give basis index [x]. *)
Definition phase_less_than (N x : Z) : amp :=
  if x <? N then aopp aone else aone.

End semantics.

(* ================================================================== *)
(** ** Vocabulary of the statements *)

Module spec.
Import Py qiskit linear_mc_gate.

(** [int.bit_length] of a non-negative integer. *)
Definition bit_length (number : Z) : Z :=
  if number =? 0 then 0 else Z.log2 number + 1.

(** Instructions acting on exactly two wires. *)
Definition two_qubit_count (l : list instruction) : Z :=
  len (filter (fun ins => len (snd ins) =? 2) l).

(** The singly-controlled gate built from [_gate_U_pow(gate, d, inv)]. *)
Definition controlled_root (gate : ndarray) (d : Q) (inv : bool) : operation :=
  ControlledGate 1
    (Gate (Some (if inv then lit "Udg^1/" ++ fmt_d_num d
                 else lit "U^1/" ++ fmt_d_num d))
          1 [(UnitaryGate (U_pow gate d inv), [0])]).

(** Exponent rule of the Q ladder. *)
Definition q_exponent (pair : qpairs) : Z :=
  if control_ pair =? 0 then target_ pair - control_ pair - 1
  else target_ pair - control_ pair.

Definition crx_plus (pair : qpairs) : instruction :=
  (CRXGate (pi_over (pow2 (q_exponent pair))), [control_ pair; target_ pair]).
Definition crx_minus (pair : qpairs) : instruction :=
  (CRXGate (neg_pi_over (pow2 (q_exponent pair))), [control_ pair; target_ pair]).

Definition pair_sum (pair : qpairs) : Z := control_ pair + target_ pair.

(** The pairs [(control, target)] with [start <= control < target < n],
    each exactly once. *)
Definition all_pairs_from (start n : Z) (l : list qpairs) : Prop :=
  NoDup l /\
  forall c t, In (mk_qpairs c t) l <-> start <= c /\ c < t /\ t < n.

Definition descending (l : list qpairs) : Prop :=
  StronglySorted (fun a b => pair_sum b <= pair_sum a) l.
Definition ascending (l : list qpairs) : Prop :=
  StronglySorted (fun a b => pair_sum a <= pair_sum b) l.

(** The list comprehension of [_build_Q_gates], before sorting. *)
Definition pair_list (start n : Z) : list qpairs :=
  flat_map (fun target =>
              map (fun control => mk_qpairs control target) (range2 start target))
           (range n).

(** The instruction one P-ladder step contributes for control [k]. *)
Definition p_step (gate : ndarray) (n : Z) (inv : bool) (k : Z) : instruction :=
  (controlled_root gate (pow2 (n - 1 - k)) inv, [k; n - 1]).

(** The integers [1, 2, ..., n-2], ascending. *)
Definition ladder_controls (n : Z) : list Z :=
  map Z.of_nat (seq 1 (Z.to_nat (n - 2))).

(** Both passes of one Q ladder over [m] wires. *)
Definition q_ladder (m : Z) (inv : bool) : list instruction :=
  map crx_plus (sort pair_sum true (pair_list (if inv then 1 else 0) m))
  ++ map crx_minus (sort pair_sum false (pair_list (if inv then 0 else 1) m)).

(** The block [linear_mc_gate] builds over [n] wires when its step 2
    lands on block wire [t]. *)
Definition block_data (gate : ndarray) (n t : Z) : list instruction :=
  map (p_step gate n false) (rev (ladder_controls n))
  ++ [(controlled_root gate (pow2 (n - 2)) false, [0; t])]
  ++ q_ladder (n - 1) false
  ++ map (p_step gate n true) (ladder_controls n)
  ++ q_ladder (n - 1) true.

Definition pauli_z : ndarray := array (real 1) (real 0) (real 0) (real (-1)).

(** Two-qubit gates of the multi-controlled Z over [c] controls, built
    on wires [0..c-1] with target [c]; [None] if the build raises. *)
Definition mc_gate_count (c : Z) : option Z :=
  match linear_mc_gate pauli_z (mkCircuit (c + 1) None []) (range c) c with
  | (_, Ok circuit) => Some (two_qubit_count (data circuit))
  | (_, Raise _) => None
  end.

(** The multi-controlled Z over two controls, as [linear_mc_gate]
    builds it on a fresh three-wire circuit. *)
Definition mc_block_3 : QuantumCircuit :=
  Eval vm_compute in
    match linear_mc_gate pauli_z (mkCircuit 3 None []) [0; 1] 2 with
    | (_, Ok circuit) => circuit
    | (_, Raise _) => mkCircuit 0 None []
    end.

(** The circuit [multi_control_z(k)] of code_oracle.py: H, MCX, H. *)
Definition mcz_circuit (k : Z) : QuantumCircuit :=
  mkCircuit k (Some (lit " CZ (" ++ fmt_d k ++ lit ")"))
            [(HGate, [k - 1]); (MCXGate (k - 1), range k); (HGate, [k - 1])].

(** Instructions [oracle_less_than] of code_oracle.py emits for the
    first character, for one later character and in the closing loop. *)
Definition head_gates (n : Z) (first : ascii) : list instruction :=
  if Ascii.eqb first "1"
  then [(XGate, [n - 1]); (ZGate, [n - 1]); (XGate, [n - 1])]
  else [(XGate, [n - 1])].

Definition step_gates (n : Z) (pv : Z * ascii) : list instruction :=
  let position := fst pv + 1 in
  if Ascii.eqb (snd pv) "0"
  then [(XGate, [n - position - 1])]
  else [(XGate, [n - position - 1]);
        (to_gate (mcz_circuit (position + 1)),
         range3 (n - 1) (n - position - 2) (-1));
        (XGate, [n - position - 1])].

Definition final_gates (n : Z) (pv : Z * ascii) : list instruction :=
  if Ascii.eqb (snd pv) "0" then [(XGate, [n - fst pv - 1])] else [].

Definition oracle_gates (n : Z) (num_binary : str) : list instruction :=
  head_gates n (hd "0"%char num_binary)
  ++ flat_map (step_gates n) (enumerate (slice_from 1 num_binary))
  ++ flat_map (final_gates n) (enumerate num_binary).

(** The padded binary string [to_binary] returns when the number fits. *)
Definition padded (number nbits : Z) : str :=
  str_mul "0" (nbits - Z.max 1 (bit_length number)) ++ slice_from 2 (bin number).

(** Reading a binary string against the bits of a basis index, from
    wire [w] downwards. *)
Definition bit (c : ascii) : bool := Ascii.eqb c "1".

Definition binary_char (c : ascii) : Prop := c = "0"%char \/ c = "1"%char.

(** The index carries the string's bits on wires [w, w-1, ...]. *)
Fixpoint agree (w : Z) (s : str) (y : Z) : bool :=
  match s with
  | [] => true
  | c :: s' => Bool.eqb (Z.testbit y w) (bit c) && agree (w - 1) s' y
  end.

(** The index's bits on wires [w, w-1, ...] are lexicographically
    below the string. *)
Fixpoint below (w : Z) (s : str) (y : Z) : bool :=
  match s with
  | [] => false
  | c :: s' => if Bool.eqb (Z.testbit y w) (bit c) then below (w - 1) s' y
               else bit c
  end.

(** The wires, from [w] downwards, on which the string has a zero. *)
Fixpoint mask (w : Z) (s : str) : Z :=
  match s with
  | [] => 0
  | c :: s' => Z.lxor (if bit c then 0 else Z.shiftl 1 w) (mask (w - 1) s')
  end.

(** The number a binary string denotes, most significant digit first. *)
Fixpoint val (s : str) : Z :=
  match s with
  | [] => 0
  | c :: s' => Z.b2z (bit c) * 2 ^ len s' + val s'
  end.

(** The [k] wires [w, w-1, ...]. *)
Definition wires_down (w : Z) (k : nat) : list Z :=
  map (fun i => w - Z.of_nat i) (seq 0 k).

(** What the circuit has done to [psi] once the characters [pre] are
    processed: the zeros of [pre] are flipped, and the indices below
    [pre] on its wires carry a minus sign. *)
Definition marked_after (n : Z) (pre : str) (psi phi : semantics.state) : Prop :=
  forall x,
    phi x = (if below (n - 1) pre (Z.lxor x (mask (n - 1) pre))
             then semantics.aopp (psi (Z.lxor x (mask (n - 1) pre)))
             else psi (Z.lxor x (mask (n - 1) pre))).

(** The phase a greater-than oracle for [N] must give basis index [x]. *)
Definition phase_greater_than (N x : Z) : semantics.amp :=
  if N <? x then semantics.aopp semantics.aone else semantics.aone.

(** The sandwich on the top wire that marks the lower half. *)
Definition top_sandwich (n : Z) : list instruction :=
  [(XGate, [n - 1]); (ZGate, [n - 1]); (XGate, [n - 1])].

(** A sign applied to an amplitude. *)
Definition sgn (minus : bool) (a : semantics.amp) : semantics.amp :=
  if minus then semantics.aopp a else a.

(** The global-phase tail of [oracle_greater_than], in append order. *)
Definition phase_tail : list instruction :=
  [(ZGate, [0]); (XGate, [0]); (ZGate, [0]); (XGate, [0])].

(** The tail in the order X, Z, X, Z. *)
Definition xzxz_tail : list instruction :=
  [(XGate, [0]); (ZGate, [0]); (XGate, [0]); (ZGate, [0])].

End spec.

(* ================================================================== *)
(** ** Proofs *)

Import Py qiskit semantics spec.

(** *** The [py] monad *)

Lemma bind_ret_l {A B} (a : A) (f : A -> py B) : bind (ret a) f = f a.
Proof. unfold bind, ret. destruct (f a) as [out r]. reflexivity. Qed.

Lemma bind_raise {A B} (e : exn) (f : A -> py B) : bind (raise e) f = raise e.
Proof. reflexivity. Qed.

Lemma bind_ok_inv {A B} (m : py A) (f : A -> py B) out b :
  bind m f = (out, Ok b) ->
  exists out1 a out2, m = (out1, Ok a) /\ f a = (out2, Ok b) /\ out = out1 ++ out2.
Proof.
  unfold bind. destruct m as [out1 [a|e]]; [|discriminate].
  destruct (f a) as [out2 r] eqn:E. intros H. inversion H; subst.
  exists out1, a, out2. auto.
Qed.

Lemma for_each_app {A S} (xs ys : list A) (body : A -> S -> py S) (s : S) :
  for_each (xs ++ ys) body s = bind (for_each xs body s) (for_each ys body).
Proof.
  revert s. induction xs as [|x xs IH]; intros s.
  - symmetry. apply bind_ret_l.
  - cbn [app for_each].
    destruct (body x s) as [out [s'|e]]; simpl; [|reflexivity].
    rewrite IH. destruct (for_each xs body s') as [o1 [s1|e1]]; simpl; [|reflexivity].
    destruct (for_each ys body s1) as [o2 r2]. now rewrite app_assoc.
Qed.

(** A loop whose every step succeeds silently by appending instructions. *)
Lemma for_each_extend {A} (xs : list A) (body : A -> QuantumCircuit -> py QuantumCircuit)
      (g : A -> list instruction) (P : QuantumCircuit -> Prop) :
  (forall c more, P c -> P (extend c more)) ->
  (forall a c, In a xs -> P c -> body a c = ret (extend c (g a))) ->
  forall c, P c -> for_each xs body c = ret (extend c (flat_map g xs)).
Proof.
  intros Hext. induction xs as [|a xs IH]; intros Hbody c Hc; cbn [for_each flat_map].
  - unfold extend. rewrite app_nil_r. now destruct c.
  - rewrite Hbody by (simpl; auto). rewrite bind_ret_l.
    rewrite IH; auto.
    + unfold extend; simpl. now rewrite <- app_assoc.
    + intros; apply Hbody; simpl; auto.
Qed.

Lemma for_each_invariant {A S} (P : S -> Prop) (xs : list A) (body : A -> S -> py S) :
  (forall a s out s', P s -> body a s = (out, Ok s') -> P s') ->
  forall s out s', P s -> for_each xs body s = (out, Ok s') -> P s'.
Proof.
  intros Hbody. induction xs as [|a xs IH]; intros s out s' Hs H; simpl in H.
  - inversion H; subst; assumption.
  - apply bind_ok_inv in H as (o1 & s1 & o2 & H1 & H2 & _).
    eapply IH; [|exact H2]. eapply Hbody; eauto.
Qed.

(** *** [to_binary] *)

Lemma len_app {A} (l1 l2 : list A) : len (l1 ++ l2) = len l1 + len l2.
Proof. unfold len. rewrite length_app. lia. Qed.

Lemma len_cons {A} (a : A) (l : list A) : len (a :: l) = 1 + len l.
Proof. unfold len. cbn [List.length]. lia. Qed.

Lemma len_nonneg {A} (l : list A) : 0 <= len l.
Proof. unfold len. lia. Qed.

Lemma len_digits (p : positive) : len (digits p) = Z.log2 (Zpos p) + 1.
Proof.
  induction p as [p IH|p IH|]; simpl digits; try rewrite len_app, IH;
    try reflexivity.
  - change (len ["1"%char]) with 1.
    change (Z.pos p~1) with (2 * Z.pos p + 1).
    rewrite (Z.log2_succ_double (Zpos p)); lia.
  - change (len ["0"%char]) with 1.
    change (Z.pos p~0) with (2 * Z.pos p).
    rewrite (Z.log2_double (Zpos p)); lia.
Qed.

Lemma binary_of_nonneg (number : Z) :
  0 <= number ->
  slice_from 2 (bin number) =
  match number with Zpos p => digits p | _ => ["0"%char] end.
Proof. destruct number; simpl; intros; try reflexivity; lia. Qed.

Lemma len_binary (number : Z) :
  0 <= number -> len (slice_from 2 (bin number)) = Z.max 1 (bit_length number).
Proof.
  intros H. rewrite binary_of_nonneg by assumption. unfold bit_length.
  destruct number as [|p|p]; try reflexivity; try lia.
  rewrite len_digits. change (Z.pos p =? 0) with false. cbv iota.
  pose proof (Z.log2_nonneg (Z.pos p)). lia.
Qed.

(** C9.  For a non-negative [number] and [nbits] below its bit length,
    [to_binary(number, nbits)] (the same function in both files) does
    not raise: it prints the one error line and returns [None]. *)
Theorem to_binary_short_prints_and_returns_None (number nbits : Z) :
  0 <= number ->
  nbits < bit_length number ->
  let outcome :=
    ([lit "Error, nbits must be larger than "
        ++ fmt_d (Z.max 1 (bit_length number)) ++ lit "."], Ok None) in
  code_oracle.to_binary number (Some nbits) = outcome /\
  functions_oracles.to_binary number (Some nbits) = outcome.
Proof.
  intros Hn Hb outcome.
  assert (E : utilities.to_binary number (Some nbits) = outcome).
  { unfold utilities.to_binary, outcome. rewrite len_binary by assumption.
    replace (nbits <? Z.max 1 (bit_length number)) with true
      by (symmetry; apply Z.ltb_lt; lia).
    reflexivity. }
  split; exact E.
Qed.

Lemma to_binary_short_prints_and_returns_None_witness :
  code_oracle.to_binary 5 (Some 2)
  = ([lit "Error, nbits must be larger than 3."], Ok None) /\
  functions_oracles.to_binary 5 (Some 2)
  = ([lit "Error, nbits must be larger than 3."], Ok None).
Proof.
  apply (to_binary_short_prints_and_returns_None 5 2);
    [lia | vm_compute; reflexivity].
Defined.

Lemma to_binary_fits (number nbits : Z) :
  0 <= number ->
  Z.max 1 (bit_length number) <= nbits ->
  utilities.to_binary number (Some nbits) =
  ret (Some (str_mul "0" (nbits - Z.max 1 (bit_length number))
             ++ slice_from 2 (bin number))).
Proof.
  intros Hn Hb. unfold utilities.to_binary. rewrite len_binary by assumption.
  replace (nbits <? Z.max 1 (bit_length number)) with false
    by (symmetry; apply Z.ltb_ge; lia).
  reflexivity.
Qed.

(** *** The empty threshold string *)

Lemma lstrip_all (c : ascii) (s : str) :
  (forall a, In a s -> a = c) -> lstrip c s = [].
Proof.
  induction s as [|a s IH]; intros H; simpl; [reflexivity|].
  rewrite (H a) by (simpl; auto). rewrite Ascii.eqb_refl.
  apply IH. intros; apply H; simpl; auto.
Qed.

Lemma rstrip_all (c : ascii) (s : str) :
  (forall a, In a s -> a = c) -> rstrip c s = [].
Proof.
  intros H. unfold rstrip. rewrite lstrip_all; [reflexivity|].
  intros a Ha. apply H. now apply in_rev.
Qed.

Lemma new_circuit_ok (n : Z) (name : option str) :
  0 <= n -> new_circuit n name = ret (mkCircuit n name []).
Proof.
  intros H. unfold new_circuit.
  replace (n <? 0) with false by (symmetry; apply Z.ltb_ge; lia). reflexivity.
Qed.

Lemma oracle_less_than_body_zero mcz (nqubits : Z) (name : option str) :
  1 <= nqubits ->
  oracle_less_than_body mcz 0 nqubits name = ([], Raise IndexError).
Proof.
  intros H. unfold oracle_less_than_body.
  assert (Hc : forall nm, new_circuit nqubits nm = ret (mkCircuit nqubits nm []))
    by (intros; apply new_circuit_ok; lia).
  rewrite !Hc. destruct (truthy name); rewrite bind_ret_l;
    (rewrite to_binary_fits by (vm_compute bit_length; lia);
     rewrite !bind_ret_l;
     rewrite rstrip_all;
     [reflexivity|
      intros a Ha; apply in_app_or in Ha as [Ha|Ha];
      [ apply repeat_spec in Ha; exact Ha
      | simpl in Ha; destruct Ha as [Ha|[]]; auto ]]).
Qed.

(** C10.  For every [nqubits >= 1], [oracle_less_than(0, nqubits)]
    returns no circuit in either file: the padded, stripped binary
    string is empty and reading its first character raises
    [IndexError]. *)
Theorem oracle_less_than_zero_raises_IndexError (nqubits : Z) (name : option str) :
  1 <= nqubits ->
  code_oracle.oracle_less_than 0 nqubits name = ([], Raise IndexError) /\
  functions_oracles.oracle_less_than 0 nqubits name = ([], Raise IndexError).
Proof.
  intros H. split; apply oracle_less_than_body_zero; assumption.
Qed.

Lemma oracle_less_than_zero_raises_IndexError_witness :
  code_oracle.oracle_less_than 0 3 None = ([], Raise IndexError) /\
  functions_oracles.oracle_less_than 0 3 None = ([], Raise IndexError).
Proof.
  apply (oracle_less_than_zero_raises_IndexError 3 None). lia.
Defined.

(** *** Ranges *)

Lemma range3_up (a b : Z) :
  range3 a b 1 = map (fun i => a + Z.of_nat i) (seq 0 (Z.to_nat (b - a))).
Proof.
  unfold range3, range_len. change (0 <? 1) with true. cbv iota.
  destruct (a <? b) eqn:E.
  - rewrite Z.div_1_r. replace (b - a - 1 + 1) with (b - a) by lia.
    apply map_ext. intros; lia.
  - apply Z.ltb_ge in E. replace (Z.to_nat (b - a)) with O by lia. reflexivity.
Qed.

Lemma range3_down (a b : Z) :
  range3 a b (-1) = map (fun i => a - Z.of_nat i) (seq 0 (Z.to_nat (a - b))).
Proof.
  unfold range3, range_len. change (0 <? -1) with false. cbv iota.
  change (- -1) with 1.
  destruct (b <? a) eqn:E.
  - rewrite Z.div_1_r. replace (a - b - 1 + 1) with (a - b) by lia.
    apply map_ext. intros; lia.
  - apply Z.ltb_ge in E. replace (Z.to_nat (a - b)) with O by lia. reflexivity.
Qed.

Lemma in_range2 (a b k : Z) : In k (range2 a b) <-> a <= k < b.
Proof.
  unfold range2. rewrite range3_up, in_map_iff. split.
  - intros (i & <- & Hi). apply in_seq in Hi. lia.
  - intros H. exists (Z.to_nat (k - a)). split; [lia|]. apply in_seq. lia.
Qed.

Lemma in_range (n k : Z) : In k (range n) <-> 0 <= k < n.
Proof. apply (in_range2 0 n k). Qed.

Lemma len_range2 (a b : Z) : len (range2 a b) = Z.max 0 (b - a).
Proof.
  unfold range2, len. rewrite range3_up, length_map, length_seq. lia.
Qed.

Lemma range2_snoc (a b : Z) : a <= b -> range2 a (b + 1) = range2 a b ++ [b].
Proof.
  intros H. unfold range2. rewrite !range3_up.
  replace (Z.to_nat (b + 1 - a)) with (S (Z.to_nat (b - a))) by lia.
  rewrite seq_S, map_app. simpl. do 2 f_equal. lia.
Qed.

Lemma NoDup_range2 (a b : Z) : NoDup (range2 a b).
Proof.
  unfold range2. rewrite range3_up.
  apply NoDup_map_NoDup_ForallPairs; [|apply seq_NoDup].
  intros i j _ _ E. lia.
Qed.

Lemma countdown_rev (k : nat) (a : Z) :
  map (fun i => a - Z.of_nat i) (seq 0 k)
  = rev (map (fun i => a - Z.of_nat k + 1 + Z.of_nat i) (seq 0 k)).
Proof.
  induction k as [|k IH].
  - reflexivity.
  - transitivity (map (fun i => a - Z.of_nat i) (seq 0 k) ++ [a - Z.of_nat k]).
    + rewrite seq_S, map_app. reflexivity.
    + rewrite IH. cbn [seq map rev].
      rewrite <- seq_shift, map_map. f_equal.
      * f_equal. apply map_ext. intros; lia.
      * f_equal. lia.
Qed.

(** Counting down from [a] to just above [b] is the reverse of counting
    up from [b+1] to [a]. *)
Lemma range3_down_rev (a b : Z) : range3 a b (-1) = rev (range2 (b + 1) (a + 1)).
Proof.
  unfold range2. rewrite range3_down, range3_up, countdown_rev.
  replace (a + 1 - (b + 1)) with (a - b) by lia.
  f_equal. destruct (Z.le_gt_cases a b).
  - replace (Z.to_nat (a - b)) with O by lia. reflexivity.
  - apply map_ext. intros; lia.
Qed.

Lemma range2_ladder (n : Z) : range2 1 (n - 1) = ladder_controls n.
Proof.
  unfold range2, ladder_controls. rewrite range3_up.
  replace (n - 1 - 1) with (n - 2) by lia.
  rewrite <- seq_shift, map_map. apply map_ext. intros; lia.
Qed.

Lemma in_ladder_controls (n k : Z) : In k (ladder_controls n) <-> 1 <= k <= n - 2.
Proof. rewrite <- range2_ladder, in_range2. lia. Qed.

(** *** The stable sort *)

Section SortFacts.
Context {A : Type} (key : A -> Z) (reverse : bool).

Let R (a b : A) : Prop := before key reverse a b = true.

Lemma insert_perm (x : A) (l : list A) :
  Permutation (insert key reverse x l) (x :: l).
Proof.
  induction l as [|y l IH]; simpl; [reflexivity|].
  destruct (before key reverse x y); [reflexivity|].
  rewrite IH. apply perm_swap.
Qed.

Lemma sort_perm (l : list A) : Permutation (sort key reverse l) l.
Proof.
  induction l as [|x l IH]; simpl; [reflexivity|].
  rewrite insert_perm. now constructor.
Qed.

Lemma sort_len (l : list A) : len (sort key reverse l) = len l.
Proof. unfold len. now rewrite (Permutation_length (sort_perm l)). Qed.

Lemma before_total (a b : A) : before key reverse a b = false -> R b a.
Proof.
  unfold R, before. destruct reverse; rewrite Z.leb_gt, Z.leb_le; lia.
Qed.

Lemma before_trans (a b c : A) : R a b -> R b c -> R a c.
Proof.
  unfold R, before. destruct reverse; rewrite !Z.leb_le; lia.
Qed.

Lemma insert_sorted (x : A) (l : list A) :
  StronglySorted R l -> StronglySorted R (insert key reverse x l).
Proof.
  induction 1 as [|y l Hl IH Hy]; simpl.
  - repeat constructor.
  - destruct (before key reverse x y) eqn:E.
    + constructor; [now constructor|].
      constructor; [exact E|].
      eapply Forall_impl; [|exact Hy]. intros b Hb. now apply before_trans with y.
    + constructor; [exact IH|].
      eapply Permutation_Forall; [symmetry; apply insert_perm|].
      constructor; [now apply before_total | exact Hy].
Qed.

Lemma sort_sorted (l : list A) : StronglySorted R (sort key reverse l).
Proof.
  induction l as [|x l IH]; simpl; [constructor|]. now apply insert_sorted.
Qed.
End SortFacts.

(** *** Appending to a circuit *)

Lemma resolve_in_range (n q : Z) : 0 <= q < n -> resolve n q = ret q.
Proof.
  intros H. unfold resolve.
  replace (0 <=? q) with true by (symmetry; apply Z.leb_le; lia).
  replace (q <? n) with true by (symmetry; apply Z.ltb_lt; lia).
  reflexivity.
Qed.

Lemma resolve_all_in_range (n : Z) (qs : list Z) :
  (forall q, In q qs -> 0 <= q < n) -> resolve_all n qs = ret qs.
Proof.
  induction qs as [|q qs IH]; intros H; simpl; [reflexivity|].
  rewrite resolve_in_range by (apply H; simpl; auto).
  rewrite bind_ret_l, IH by (intros; apply H; simpl; auto).
  now rewrite bind_ret_l.
Qed.

Lemma distinct_NoDup (qs : list Z) : NoDup qs -> distinct qs = true.
Proof.
  induction 1 as [|q qs Hq _ IH]; simpl; [reflexivity|].
  rewrite IH, andb_true_r. apply negb_true_iff.
  destruct (existsb (Z.eqb q) qs) eqn:E; [|reflexivity].
  apply existsb_exists in E as (y & Hy & Ey). apply Z.eqb_eq in Ey. now subst.
Qed.

Lemma append_ok (c : QuantumCircuit) (op : operation) (qargs : list Z) :
  len qargs = width op ->
  (forall q, In q qargs -> 0 <= q < num_qubits c) ->
  NoDup qargs ->
  append c op qargs = ret (extend c [(op, qargs)]).
Proof.
  intros Hw Hr Hd. unfold append.
  rewrite Hw, Z.eqb_refl. cbn [negb].
  rewrite resolve_all_in_range, bind_ret_l by assumption.
  now rewrite distinct_NoDup.
Qed.

Lemma append1_ok (c : QuantumCircuit) (op : operation) (q : Z) :
  width op = 1 -> 0 <= q < num_qubits c ->
  append c op [q] = ret (extend c [(op, [q])]).
Proof.
  intros Hw Hq. apply append_ok.
  - now rewrite Hw.
  - intros q' [<-|[]]. assumption.
  - repeat constructor. simpl. tauto.
Qed.

Lemma append2_ok (c : QuantumCircuit) (op : operation) (a b : Z) :
  width op = 2 -> 0 <= a < num_qubits c -> 0 <= b < num_qubits c -> a <> b ->
  append c op [a; b] = ret (extend c [(op, [a; b])]).
Proof.
  intros Hw Ha Hb Hab. apply append_ok.
  - now rewrite Hw.
  - intros q' [<-|[<-|[]]]; assumption.
  - constructor; [simpl; intros [E|[]]; congruence|].
    constructor; [simpl; tauto | constructor].
Qed.

Lemma append_num_qubits (c c' : QuantumCircuit) op qargs out :
  append c op qargs = (out, Ok c') -> num_qubits c' = num_qubits c.
Proof.
  unfold append. destruct (negb (len qargs =? width op)); [discriminate|].
  intros H. apply bind_ok_inv in H as (o1 & qs & o2 & _ & H & _).
  destruct (negb (distinct qs)); [discriminate|].
  inversion H; subst. reflexivity.
Qed.

Lemma extend_extend (c : QuantumCircuit) (l1 l2 : list instruction) :
  extend (extend c l1) l2 = extend c (l1 ++ l2).
Proof. unfold extend; simpl. now rewrite <- app_assoc. Qed.

Lemma flat_map_singleton {A B} (f : A -> B) (l : list A) :
  flat_map (fun a => [f a]) l = map f l.
Proof. induction l; simpl; congruence. Qed.

(** *** The P ladder *)

(** The determinant of a unitary matrix has modulus one. *)
Lemma unitary_not_singular (U : ndarray) :
  is_unitary U = true -> is_singular U = false.
Proof.
  destruct U as [[a1 a2] [b1 b2] [c1 c2] [d1 d2]].
  unfold is_unitary, is_singular, ceqb, cplus, cminus, cmult, conj, real.
  cbn [re im a00 a01 a10 a11]. intros H.
  apply andb_true_iff in H as [H H4]. apply andb_true_iff in H as [H _].
  apply andb_true_iff in H as [H1 H2].
  apply andb_true_iff in H1 as [H1 _]. apply andb_true_iff in H2 as [H2 H3].
  apply andb_true_iff in H4 as [H4 _].
  apply Qeq_bool_iff in H1, H2, H3, H4.
  apply not_true_is_false. intros Hd.
  apply andb_true_iff in Hd as [D1 D2].
  apply Qeq_bool_iff in D1, D2.
  assert (E : ((a1 * d1 - a2 * d2 - (b1 * c1 - b2 * c2))
               * (a1 * d1 - a2 * d2 - (b1 * c1 - b2 * c2))
               + (a1 * d2 + a2 * d1 - (b1 * c2 + b2 * c1))
                 * (a1 * d2 + a2 * d1 - (b1 * c2 + b2 * c1))
               == (a1 * a1 - - a2 * a2 + (c1 * c1 - - c2 * c2))
                  * (b1 * b1 - - b2 * b2 + (d1 * d1 - - d2 * d2))
                  - (a1 * b1 - - a2 * b2 + (c1 * d1 - - c2 * d2))
                    * (a1 * b1 - - a2 * b2 + (c1 * d1 - - c2 * d2))
                  - (a1 * b2 + - a2 * b1 + (c1 * d2 + - c2 * d1))
                    * (a1 * b2 + - a2 * b1 + (c1 * d2 + - c2 * d1)))%Q)
    by ring.
  rewrite D1, D2, H1, H2, H3, H4 in E.
  vm_compute in E. discriminate E.
Qed.

Lemma gate_U_pow_ok (gate : ndarray) (d : Q) (inv : bool) :
  is_unitary gate = true ->
  linear_mc_gate._gate_U_pow gate d inv =
  ret (mkCircuit 1 (Some (if inv then lit "Udg^1/" ++ linear_mc_gate.fmt_d_num d
                          else lit "U^1/" ++ linear_mc_gate.fmt_d_num d))
                 [(UnitaryGate (U_pow gate d inv), [0])]).
Proof.
  intros Hu. unfold linear_mc_gate._gate_U_pow, unitary_.
  cbn [root_is_singular root_is_unitary].
  rewrite Hu, (unitary_not_singular gate Hu). destruct inv; reflexivity.
Qed.

(** The direct root of a matrix that is not unitary is refused. *)
Lemma gate_U_pow_not_unitary (gate : ndarray) (d : Q) :
  is_unitary gate = false ->
  linear_mc_gate._gate_U_pow gate d false = raise ValueError.
Proof.
  intros Hu. unfold linear_mc_gate._gate_U_pow, unitary_.
  cbn [root_is_unitary]. rewrite Hu. reflexivity.
Qed.

Lemma compose_controlled_root (c : QuantumCircuit) gate d inv (k t : Z) :
  is_unitary gate = true ->
  0 <= k < num_qubits c -> 0 <= t < num_qubits c -> k <> t ->
  (gateU <- linear_mc_gate._gate_U_pow gate d inv ;;
   compose c (control gateU 1) [k; t])
  = ret (extend c [(controlled_root gate d inv, [k; t])]).
Proof.
  intros Hu Hk Ht Hkt. rewrite gate_U_pow_ok, bind_ret_l by assumption.
  unfold compose.
  change (negb (len [k; t] =? _)) with false. cbv iota.
  rewrite resolve_all_in_range, bind_ret_l
    by (intros q [<-|[<-|[]]]; assumption).
  rewrite distinct_NoDup
    by (constructor; [simpl; intros [E|[]]; congruence|];
        constructor; [simpl; tauto | constructor]).
  reflexivity.
Qed.

Lemma build_P_gates_ok gate (n : Z) (c : QuantumCircuit) (inv : bool) :
  is_unitary gate = true ->
  n <= num_qubits c ->
  linear_mc_gate._build_P_gates gate n c inv =
  ret (extend c (map (p_step gate n inv)
                     (if inv then ladder_controls n else rev (ladder_controls n)))).
Proof.
  intros Hu Hn. unfold linear_mc_gate._build_P_gates.
  replace (if inv then range2 1 (n - 1) else range3 (n - 2) 0 (-1))
    with (if inv then ladder_controls n else rev (ladder_controls n)).
  2:{ destruct inv; [now rewrite range2_ladder|].
      rewrite range3_down_rev. replace (n - 2 + 1) with (n - 1) by lia.
      now rewrite <- range2_ladder. }
  rewrite <- flat_map_singleton.
  apply (for_each_extend _ _ (fun k => [p_step gate n inv k])
                         (fun c => n <= num_qubits c)); auto.
  intros k c' Hk Hc'. apply compose_controlled_root; [exact Hu | | |].
  - assert (In k (ladder_controls n))
      by (destruct inv; [assumption | now apply in_rev]).
    apply in_ladder_controls in H. lia.
  - assert (In k (ladder_controls n))
      by (destruct inv; [assumption | now apply in_rev]).
    apply in_ladder_controls in H. lia.
  - assert (In k (ladder_controls n))
      by (destruct inv; [assumption | now apply in_rev]).
    apply in_ladder_controls in H. lia.
Qed.

(** C8.  For a unitary [gate] and a circuit of at least [nqubits]
    wires, the direct pass of [_build_P_gates] visits the controls
    [nqubits-2, ..., 1] and the inverse pass visits [1, ..., nqubits-2]:
    each order is the reverse of the other, and for every control [k]
    either pass appends the gate of
    [_gate_U_pow(gate, 2**(nqubits-1-k), inv)] controlled on wire [k]
    and acting on wire [nqubits-1]. *)
Theorem build_P_gates_mirrored gate (nqubits : Z) (circuit : QuantumCircuit) :
  is_unitary gate = true ->
  nqubits <= num_qubits circuit ->
  linear_mc_gate._build_P_gates gate nqubits circuit false =
    ret (extend circuit
           (map (fun k => (controlled_root gate (pow2 (nqubits - 1 - k)) false,
                           [k; nqubits - 1]))
                (rev (ladder_controls nqubits)))) /\
  linear_mc_gate._build_P_gates gate nqubits circuit true =
    ret (extend circuit
           (map (fun k => (controlled_root gate (pow2 (nqubits - 1 - k)) true,
                           [k; nqubits - 1]))
                (ladder_controls nqubits))).
Proof.
  intros Hu H. split; rewrite build_P_gates_ok by assumption; reflexivity.
Qed.

Lemma build_P_gates_mirrored_witness :
  linear_mc_gate._build_P_gates pauli_z 5 (mkCircuit 5 None []) false =
    ret (mkCircuit 5 None
           [(controlled_root pauli_z (2 # 1) false, [3; 4]);
            (controlled_root pauli_z (4 # 1) false, [2; 4]);
            (controlled_root pauli_z (8 # 1) false, [1; 4])]) /\
  linear_mc_gate._build_P_gates pauli_z 5 (mkCircuit 5 None []) true =
    ret (mkCircuit 5 None
           [(controlled_root pauli_z (8 # 1) true, [1; 4]);
            (controlled_root pauli_z (4 # 1) true, [2; 4]);
            (controlled_root pauli_z (2 # 1) true, [3; 4])]).
Proof.
  apply (build_P_gates_mirrored pauli_z 5 (mkCircuit 5 None []));
    [reflexivity | simpl; lia].
Defined.

(** *** The Q ladder *)

Lemma in_pair_list (start n c t : Z) :
  0 <= start ->
  In (linear_mc_gate.mk_qpairs c t) (pair_list start n)
  <-> start <= c /\ c < t /\ t < n.
Proof.
  intros Hs. unfold pair_list. rewrite in_flat_map. split.
  - intros (target & Ht & Hin). apply in_map_iff in Hin as (control & E & Hc).
    inversion E; subst. apply in_range in Ht. apply in_range2 in Hc. lia.
  - intros H. exists t. split; [apply in_range; lia|].
    apply in_map_iff. exists c. split; [reflexivity|]. apply in_range2. lia.
Qed.

Lemma NoDup_flat_map {A B} (f : A -> list B) (l : list A) :
  NoDup l ->
  (forall a, In a l -> NoDup (f a)) ->
  (forall a a' b, In a l -> In a' l -> In b (f a) -> In b (f a') -> a = a') ->
  NoDup (flat_map f l).
Proof.
  induction 1 as [|a l Ha Hl IH]; intros Hf Hdisj; simpl; [constructor|].
  apply NoDup_app.
  - apply Hf; simpl; auto.
  - apply IH.
    + intros; apply Hf; simpl; auto.
    + intros a1 a2 b H1 H2; apply Hdisj; simpl; auto.
  - intros b Hb Hb'. apply in_flat_map in Hb' as (a' & Ha' & Hb').
    assert (a = a') by (apply (Hdisj a a' b); simpl; auto).
    now subst.
Qed.

Lemma NoDup_pair_list (start n : Z) : NoDup (pair_list start n).
Proof.
  unfold pair_list. apply NoDup_flat_map.
  - apply NoDup_range2.
  - intros t _. apply NoDup_map_NoDup_ForallPairs; [|apply NoDup_range2].
    intros c c' _ _ E. now inversion E.
  - intros t t' [c u] _ _ H H'.
    apply in_map_iff in H as (? & E & _), H' as (? & E' & _).
    inversion E; inversion E'; congruence.
Qed.

Lemma all_pairs_sorted (start n : Z) (reverse : bool) :
  0 <= start ->
  all_pairs_from start n (sort pair_sum reverse (pair_list start n)).
Proof.
  intros Hs. split.
  - eapply Permutation_NoDup; [symmetry; apply sort_perm | apply NoDup_pair_list].
  - intros c t. rewrite <- in_pair_list by assumption.
    split; apply Permutation_in; [|symmetry]; apply sort_perm.
Qed.

Lemma sorted_descending (l : list linear_mc_gate.qpairs) :
  descending (sort pair_sum true l).
Proof.
  unfold descending.
  eapply StronglySorted_ind with (P := fun l => StronglySorted _ l);
    [constructor | | apply (sort_sorted pair_sum true l)].
  intros a l' _ IH Ha. constructor; [exact IH|].
  eapply Forall_impl; [|exact Ha]. intros b. unfold before. apply Z.leb_le.
Qed.

Lemma sorted_ascending (l : list linear_mc_gate.qpairs) :
  ascending (sort pair_sum false l).
Proof.
  unfold ascending.
  eapply StronglySorted_ind with (P := fun l => StronglySorted _ l);
    [constructor | | apply (sort_sorted pair_sum false l)].
  intros a l' _ IH Ha. constructor; [exact IH|].
  eapply Forall_impl; [|exact Ha]. intros b. unfold before. apply Z.leb_le.
Qed.

Lemma build_Q_gates_ok (n : Z) (c : QuantumCircuit) (inv : bool) :
  n <= num_qubits c ->
  linear_mc_gate._build_Q_gates n c inv =
  ret (extend c
         (map crx_plus (sort pair_sum true (pair_list (if inv then 1 else 0) n))
          ++ map crx_minus
               (sort pair_sum false (pair_list (if inv then 0 else 1) n)))).
Proof.
  intros Hn. unfold linear_mc_gate._build_Q_gates. cbv zeta.
  fold (pair_list (if inv then 1 else 0) n).
  fold (pair_list (if inv then 0 else 1) n).
  assert (Hin : forall start reverse pair c',
             0 <= start -> n <= num_qubits c' ->
             In pair (sort pair_sum reverse (pair_list start n)) ->
             0 <= linear_mc_gate.control_ pair < num_qubits c' /\
             0 <= linear_mc_gate.target_ pair < num_qubits c' /\
             linear_mc_gate.control_ pair <> linear_mc_gate.target_ pair).
  { intros start reverse [ctl tgt] c' Hs Hc' H.
    apply (Permutation_in _ (sort_perm _ _ _)) in H.
    apply in_pair_list in H; [|assumption]. simpl. lia. }
  rewrite (for_each_extend _ _ (fun pair => [crx_plus pair])
                           (fun c => n <= num_qubits c)); auto.
  2:{ intros pair c' Hp Hc'.
      destruct (Hin (if inv then 1 else 0) true pair c') as (H1 & H2 & H3);
        [destruct inv; lia | assumption | exact Hp |].
      now apply append2_ok. }
  rewrite bind_ret_l.
  rewrite (for_each_extend _ _ (fun pair => [crx_minus pair])
                           (fun c => n <= num_qubits c)); auto.
  2:{ intros pair c' Hp Hc'.
      destruct (Hin (if inv then 0 else 1) false pair c') as (H1 & H2 & H3);
        [destruct inv; lia | assumption | exact Hp |].
      now apply append2_ok. }
  rewrite extend_extend, !flat_map_singleton. reflexivity.
Qed.

(** C7.  On a circuit of at least [nqubits] wires, for [nqubits] up
    to 1025 (beyond, the largest [2**exponent] is no float any more),
    [_build_Q_gates] appends CRX gates in exactly two passes.  Pass 1 covers each pair
    [(control, target)] with [(1 if inv else 0) <= control < target <
    nqubits] once, in descending order of [control + target], with
    angle [+pi / 2**exponent]; pass 2 covers each pair with
    [(0 if inv else 1) <= control < target < nqubits] once, in ascending
    order of [control + target], with angle [-pi / 2**exponent]; in
    both, [exponent = target - control], less one when [control = 0]. *)
Theorem build_Q_gates_two_passes (nqubits : Z) (circuit : QuantumCircuit) (inv : bool) :
  nqubits <= 1025 ->
  nqubits <= num_qubits circuit ->
  exists pass1 pass2,
    linear_mc_gate._build_Q_gates nqubits circuit inv =
      ret (extend circuit (map crx_plus pass1 ++ map crx_minus pass2)) /\
    all_pairs_from (if inv then 1 else 0) nqubits pass1 /\ descending pass1 /\
    all_pairs_from (if inv then 0 else 1) nqubits pass2 /\ ascending pass2.
Proof.
  intros _ H.
  exists (sort pair_sum true (pair_list (if inv then 1 else 0) nqubits)),
         (sort pair_sum false (pair_list (if inv then 0 else 1) nqubits)).
  split; [now apply build_Q_gates_ok|].
  split; [apply all_pairs_sorted; destruct inv; lia|].
  split; [apply sorted_descending|].
  split; [apply all_pairs_sorted; destruct inv; lia|].
  apply sorted_ascending.
Qed.

Lemma build_Q_gates_two_passes_witness :
  exists pass1 pass2,
    linear_mc_gate._build_Q_gates 3 (mkCircuit 3 None []) false =
      ret (extend (mkCircuit 3 None []) (map crx_plus pass1 ++ map crx_minus pass2)) /\
    all_pairs_from 0 3 pass1 /\ descending pass1 /\
    all_pairs_from 1 3 pass2 /\ ascending pass2.
Proof.
  apply (build_Q_gates_two_passes 3 (mkCircuit 3 None []) false);
    [lia | simpl; lia].
Defined.

(** *** [linear_mc_gate] *)

Lemma resolve_cases (n q : Z) :
  (exists t, resolve n q = ret t /\ 0 <= t < n) \/ resolve n q = raise CircuitError.
Proof.
  unfold resolve.
  destruct ((0 <=? q) && (q <? n)) eqn:E1.
  - left. exists q. split; [reflexivity|].
    apply andb_true_iff in E1 as [H1 H2].
    apply Z.leb_le in H1. apply Z.ltb_lt in H2. lia.
  - destruct ((- n <=? q) && (q <? 0)) eqn:E2.
    + left. exists (q + n). split; [reflexivity|].
      apply andb_true_iff in E2 as [H1 H2].
      apply Z.leb_le in H1. apply Z.ltb_lt in H2. lia.
    + now right.
Qed.

(** What [linear_mc_gate] computes for a non-empty control list: step 2
    resolves the caller's [target] inside the fresh block. *)
Lemma linear_mc_gate_unfold gate (circuit : QuantumCircuit) (controls : list Z)
      (target : Z) :
  is_unitary gate = true ->
  1 <= len controls ->
  let nqubits := len controls + 1 in
  linear_mc_gate.linear_mc_gate gate circuit controls target =
  (t <- resolve nqubits target ;;
   if t =? 0 then raise CircuitError
   else compose circuit
          (mkCircuit nqubits (Some (lit "MC_T" ++ fmt_d target))
                     (block_data gate nqubits t))
          (controls ++ [target])).
Proof.
  intros Hu Hc nqubits. unfold linear_mc_gate.linear_mc_gate. cbv zeta.
  fold nqubits.
  rewrite new_circuit_ok, bind_ret_l by (unfold nqubits; lia).
  rewrite build_P_gates_ok, bind_ret_l by (try assumption; simpl; lia).
  rewrite gate_U_pow_ok, bind_ret_l by assumption.
  unfold compose at 1.
  change (negb (len [0; target] =? _)) with false. cbv iota.
  cbn [resolve_all extend num_qubits].
  rewrite (resolve_in_range nqubits 0), bind_ret_l by (unfold nqubits; lia).
  destruct (resolve_cases nqubits target) as [(t & Et & Ht)|Et]; rewrite Et.
  2:{ reflexivity. }
  rewrite !bind_ret_l. cbn [distinct existsb].
  rewrite orb_false_r, andb_true_r, negb_involutive, Z.eqb_sym.
  destruct (t =? 0) eqn:E0; [reflexivity|].
  rewrite bind_ret_l.
  rewrite build_Q_gates_ok, bind_ret_l by (simpl; unfold nqubits; lia).
  rewrite build_P_gates_ok, bind_ret_l by (try assumption; simpl; lia).
  rewrite build_Q_gates_ok, bind_ret_l by (simpl; unfold nqubits; lia).
  rewrite !extend_extend. unfold extend, block_data, q_ladder. cbn [data num_qubits name].
  rewrite <- !app_assoc. reflexivity.
Qed.

(** *** Counting the gates of the block *)

Lemma range_snoc (m : Z) : 0 <= m -> range (m + 1) = range m ++ [m].
Proof. apply (range2_snoc 0 m). Qed.

Lemma len_pair_list_step (start m : Z) :
  0 <= m ->
  len (pair_list start (m + 1)) = len (pair_list start m) + Z.max 0 (m - start).
Proof.
  intros Hm. unfold pair_list. rewrite range_snoc by assumption.
  rewrite flat_map_app, len_app. cbn [flat_map]. rewrite app_nil_r.
  f_equal. unfold len at 1. rewrite length_map. apply len_range2.
Qed.

Lemma len_pair_list_0 (m : Z) :
  0 <= m -> 2 * len (pair_list 0 m) = m * (m - 1).
Proof.
  revert m. apply natlike_ind; [reflexivity|].
  intros m Hm IH. unfold Z.succ. rewrite len_pair_list_step by assumption. lia.
Qed.

Lemma len_pair_list_1 (m : Z) :
  1 <= m -> 2 * len (pair_list 1 m) = (m - 1) * (m - 2).
Proof.
  intros Hm. replace m with ((m - 1) + 1) at 1 by lia.
  assert (H : 0 <= m - 1) by lia. revert H.
  replace ((m - 1) * (m - 2)) with ((m - 1) * (m - 1 - 1)) by lia.
  generalize (m - 1). clear. apply natlike_ind; [reflexivity|].
  intros m Hm IH. unfold Z.succ.
  rewrite len_pair_list_step by lia. lia.
Qed.

Lemma len_map {A B} (f : A -> B) (l : list A) : len (map f l) = len l.
Proof. unfold len. now rewrite length_map. Qed.

Lemma len_q_ladder (m : Z) (inv : bool) :
  1 <= m -> len (q_ladder m inv) = (m - 1) * (m - 1).
Proof.
  intros Hm. unfold q_ladder. rewrite len_app, !len_map, !sort_len.
  pose proof (len_pair_list_0 m ltac:(lia)).
  pose proof (len_pair_list_1 m Hm).
  destruct inv; lia.
Qed.

Lemma len_ladder_controls (n : Z) : len (ladder_controls n) = Z.max 0 (n - 2).
Proof. unfold ladder_controls, len. rewrite length_map, length_seq. lia. Qed.

Lemma len_block_data gate (n t : Z) :
  2 <= n -> len (block_data gate n t) = 2 * (n - 1) * (n - 1) - 2 * (n - 1) + 1.
Proof.
  intros Hn. unfold block_data.
  rewrite !len_app, !len_map, !len_q_ladder by lia.
  unfold len at 1. rewrite length_rev. fold (len (ladder_controls n)).
  rewrite len_ladder_controls. change (len [_]) with 1. lia.
Qed.

Lemma block_data_two_wires gate (n t : Z) :
  Forall (fun ins => len (snd ins) = 2) (block_data gate n t).
Proof.
  unfold block_data, q_ladder.
  repeat (apply Forall_app; split);
    try (apply Forall_forall; intros ins H;
         apply in_map_iff in H as (? & <- & _); reflexivity).
  repeat constructor.
Qed.

Lemma two_qubit_count_app (l1 l2 : list instruction) :
  two_qubit_count (l1 ++ l2) = two_qubit_count l1 + two_qubit_count l2.
Proof. unfold two_qubit_count. now rewrite filter_app, len_app. Qed.

Lemma two_qubit_count_remap (qs : list Z) (l : list instruction) :
  Forall (fun ins => len (snd ins) = 2) l ->
  two_qubit_count (map (remap qs) l) = len l.
Proof.
  unfold two_qubit_count. induction 1 as [|ins l H _ IH]; [reflexivity|].
  cbn [map filter]. unfold remap at 1. cbn [snd].
  rewrite len_map, H. change (2 =? 2) with true. cbv iota.
  rewrite !len_cons, IH. reflexivity.
Qed.

(** A call that returns was given a unitary matrix: otherwise the
    root of step 2, or the first root of the direct P ladder before it,
    is refused. *)
Lemma linear_mc_gate_returns_unitary gate (circuit : QuantumCircuit)
      (controls : list Z) (target : Z) out (circuit' : QuantumCircuit) :
  linear_mc_gate.linear_mc_gate gate circuit controls target = (out, Ok circuit') ->
  is_unitary gate = true.
Proof.
  intros H. destruct (is_unitary gate) eqn:Hu; [reflexivity|]. exfalso.
  unfold linear_mc_gate.linear_mc_gate in H. cbv zeta in H.
  apply bind_ok_inv in H as (o1 & c1 & o2 & _ & H & _).
  apply bind_ok_inv in H as (o3 & c2 & o4 & _ & H & _).
  rewrite gate_U_pow_not_unitary in H by assumption. discriminate H.
Qed.

(** What a returning call has appended: the block, placed on the
    caller's wires. *)
Lemma linear_mc_gate_result gate (circuit : QuantumCircuit)
      (controls : list Z) (target : Z) out (circuit' : QuantumCircuit) :
  1 <= len controls ->
  linear_mc_gate.linear_mc_gate gate circuit controls target = (out, Ok circuit') ->
  exists qs t,
    resolve (len controls + 1) target = ret t /\
    data circuit' =
    data circuit ++ map (remap qs) (block_data gate (len controls + 1) t).
Proof.
  intros Hc H. pose proof (linear_mc_gate_returns_unitary _ _ _ _ _ _ H) as Hu.
  rewrite linear_mc_gate_unfold in H by assumption.
  destruct (resolve_cases (len controls + 1) target) as [(t & Et & _)|Et];
    rewrite Et in H; [|discriminate].
  rewrite bind_ret_l in H.
  destruct (t =? 0); [discriminate|].
  unfold compose in H.
  destruct (negb (len (controls ++ [target]) =? _)); [discriminate|].
  apply bind_ok_inv in H as (o3 & qs & o4 & _ & H & _).
  destruct (negb (distinct qs)); [discriminate|].
  inversion H; subst. exists qs, t. split; [exact Et | reflexivity].
Qed.

Lemma block_data_step2 gate (n t : Z) (d : instruction) :
  nth (List.length (ladder_controls n)) (block_data gate n t) d
  = (controlled_root gate (pow2 (n - 2)) false, [0; t]).
Proof.
  unfold block_data.
  rewrite app_nth2 by (rewrite length_map, length_rev; lia).
  rewrite length_map, length_rev, Nat.sub_diag. reflexivity.
Qed.

(** In every returning call, the instruction appended after the direct
    P ladder is the root gate on the wires the caller gave to block
    wires [0] and [t], where [t] is the caller's [target] read as a wire
    of the block. *)
Lemma linear_mc_gate_step2_wires gate (circuit : QuantumCircuit)
      (controls : list Z) (target : Z) out (circuit' : QuantumCircuit) :
  1 <= len controls ->
  linear_mc_gate.linear_mc_gate gate circuit controls target = (out, Ok circuit') ->
  exists qs t,
    resolve (len controls + 1) target = ret t /\
    nth (List.length (data circuit)
         + List.length (ladder_controls (len controls + 1)))
        (data circuit') (XGate, [])
    = (controlled_root gate (pow2 (len controls + 1 - 2)) false,
       [place qs 0; place qs t]).
Proof.
  intros Hc H.
  destruct (linear_mc_gate_result _ _ _ _ _ _ Hc H) as (qs & t & Et & E).
  exists qs, t. split; [exact Et|]. rewrite E.
  rewrite app_nth2 by lia.
  replace (List.length (data circuit)
           + List.length (ladder_controls (len controls + 1))
           - List.length (data circuit))%nat
    with (List.length (ladder_controls (len controls + 1))) by lia.
  change (XGate, @nil Z) with (remap qs (XGate, [])).
  rewrite map_nth, block_data_step2. reflexivity.
Qed.

Lemma two_qubit_count_block (l : list instruction) (qs : list Z) gate (n t : Z) :
  2 <= n ->
  two_qubit_count (l ++ map (remap qs) (block_data gate n t))
  = two_qubit_count l + (2 * (n - 1) * (n - 1) - 2 * (n - 1) + 1).
Proof.
  intros Hn.
  rewrite two_qubit_count_app, two_qubit_count_remap
    by apply block_data_two_wires.
  now rewrite len_block_data by assumption.
Qed.

(** C2 (amended).  Whenever [linear_mc_gate] returns for a non-empty
    control list of length [c], it has appended exactly
    [2*c*c - 2*c + 1] two-qubit gates: the count is quadratic in the
    number of controls. *)
Theorem linear_mc_gate_two_qubit_count gate (circuit : QuantumCircuit)
        (controls : list Z) (target : Z) out (circuit' : QuantumCircuit) :
  1 <= len controls ->
  linear_mc_gate.linear_mc_gate gate circuit controls target = (out, Ok circuit') ->
  two_qubit_count (data circuit') =
  two_qubit_count (data circuit)
  + (2 * len controls * len controls - 2 * len controls + 1).
Proof.
  intros Hc H.
  destruct (linear_mc_gate_result _ _ _ _ _ _ Hc H) as (qs & t & _ & E).
  rewrite E, two_qubit_count_block by lia. f_equal. lia.
Qed.

Lemma NoDup_range (n : Z) : NoDup (range n).
Proof. apply NoDup_range2. Qed.

Lemma len_range (n : Z) : len (range n) = Z.max 0 n.
Proof. unfold range. fold (range2 0 n). rewrite len_range2. lia. Qed.

(** The call [multi_control_z] means to make: controls [0..c-1], target
    [c], on a fresh circuit of [c+1] wires. *)
Lemma linear_mc_gate_canonical gate (c : Z) (nm : option str) :
  is_unitary gate = true ->
  1 <= c ->
  exists circuit',
    linear_mc_gate.linear_mc_gate gate (mkCircuit (c + 1) nm []) (range c) c
    = ret circuit'.
Proof.
  intros Hu Hc.
  rewrite linear_mc_gate_unfold by (try assumption; rewrite len_range; lia).
  rewrite len_range. replace (Z.max 0 c) with c by lia.
  rewrite resolve_in_range, bind_ret_l by lia.
  replace (c =? 0) with false by (symmetry; apply Z.eqb_neq; lia).
  unfold compose. rewrite <- range_snoc by lia. rewrite len_range.
  cbn [num_qubits]. replace (Z.max 0 (c + 1)) with (c + 1) by lia.
  rewrite Z.eqb_refl. cbn [negb].
  rewrite resolve_all_in_range, bind_ret_l by (intros q Hq; now apply in_range).
  rewrite distinct_NoDup by apply NoDup_range. cbn [negb].
  eexists. reflexivity.
Qed.

Lemma mc_gate_count_quadratic (c : Z) :
  1 <= c -> mc_gate_count c = Some (2 * c * c - 2 * c + 1).
Proof.
  intros Hc. unfold mc_gate_count.
  destruct (linear_mc_gate_canonical pauli_z c None eq_refl Hc) as [circuit' E].
  assert (Hl : 1 <= len (range c)) by (rewrite len_range; lia).
  destruct (linear_mc_gate_result pauli_z _ _ _ _ _ Hl E) as (qs & t & _ & H).
  rewrite E. unfold ret. rewrite H, two_qubit_count_block by lia.
  rewrite len_range. replace (Z.max 0 c) with c by lia.
  cbn [data]. f_equal. unfold two_qubit_count. cbn [filter].
  unfold len. cbn [List.length]. lia.
Qed.

Lemma linear_mc_gate_two_qubit_count_witness :
  1 <= len [0; 1] /\
  linear_mc_gate.linear_mc_gate pauli_z (mkCircuit 3 None []) [0; 1] 2
  = ([], Ok mc_block_3) /\
  two_qubit_count (data mc_block_3) = 5.
Proof.
  assert (Hl : 1 <= len [0; 1]) by (vm_compute; discriminate).
  assert (E : linear_mc_gate.linear_mc_gate pauli_z (mkCircuit 3 None []) [0; 1] 2
              = ([], Ok mc_block_3)) by (vm_compute; reflexivity).
  split; [exact Hl|]. split; [exact E|].
  exact (linear_mc_gate_two_qubit_count pauli_z (mkCircuit 3 None []) [0; 1] 2
           [] mc_block_3 Hl E).
Defined.

(** C2 (as stated) fails: no linear bound [a*c + b] holds for the
    number of two-qubit gates of the block over [c] controls. *)
Lemma two_qubit_count_not_linear :
  ~ exists a b : Z,
      forall c, 1 <= c ->
                exists k, mc_gate_count c = Some k /\ k <= a * c + b.
Proof.
  intros (a & b & H).
  set (c := Z.abs a + Z.abs b + 2).
  destruct (H c ltac:(lia)) as (k & Ek & Hk).
  rewrite mc_gate_count_quadratic in Ek by lia.
  assert (Ek' : k = 2 * c * c - 2 * c + 1) by congruence.
  subst k. clear Ek H.
  assert (Ha : a * c <= Z.abs a * c) by (apply Z.mul_le_mono_nonneg_r; lia).
  assert (Hb : (Z.abs a + Z.abs b + 2) * c <= c * c) by (subst c; lia).
  assert (Hc : 2 <= c) by (subst c; lia).
  assert (Hb' : Z.abs b * 1 <= Z.abs b * c)
    by (apply Z.mul_le_mono_nonneg_l; lia).
  pose proof (Z.square_nonneg c) as Hsq.
  pose proof (Z.abs_nonneg b) as Hb0. assert (Hb1 : b <= Z.abs b) by lia.
  clearbody c. revert Ha Hb Hb' Hb0 Hb1.
  generalize (Z.abs a) (Z.abs b). intros A B Ha Hb Hb' Hb0 Hb1.
  lia.
Qed.

(** C4.  [linear_mc_gate] places its step-2 gate on the wire of the
    fresh block numbered by the caller's [target], not on the block's
    last wire.  For every unitary [gate], with controls [0; 2] and
    target [1] on a three-wire circuit the block has wires 0, 1, 2, its
    last wire 2 is the one mapped to the caller's target, yet step 2
    acts on block wires [0; 1], which the final placement sends to the
    caller's wires [0; 2]: the gate lands on a control wire. *)
Theorem linear_mc_gate_step2_on_caller_index (gate : ndarray) :
  is_unitary gate = true ->
  linear_mc_gate.linear_mc_gate gate (mkCircuit 3 None []) [0; 2] 1 =
  ret (mkCircuit 3 None
         [(controlled_root gate (2 # 1) false, [2; 1]);
          (controlled_root gate (2 # 1) false, [0; 2]);
          (CRXGate (pi_over (1 # 1)), [0; 2]);
          (controlled_root gate (2 # 1) true, [2; 1]);
          (CRXGate (neg_pi_over (1 # 1)), [0; 2])]).
Proof.
  intros Hu.
  rewrite linear_mc_gate_unfold by (try assumption; vm_compute; discriminate).
  reflexivity.
Qed.

Lemma linear_mc_gate_step2_on_caller_index_witness :
  linear_mc_gate.linear_mc_gate pauli_z (mkCircuit 3 None []) [0; 2] 1 =
  ret (mkCircuit 3 None
         [(controlled_root pauli_z (2 # 1) false, [2; 1]);
          (controlled_root pauli_z (2 # 1) false, [0; 2]);
          (CRXGate (pi_over (1 # 1)), [0; 2]);
          (controlled_root pauli_z (2 # 1) true, [2; 1]);
          (CRXGate (neg_pi_over (1 # 1)), [0; 2])]).
Proof. apply (linear_mc_gate_step2_on_caller_index pauli_z). reflexivity. Defined.

(** In the call [multi_control_z] means to make, the caller's target is
    the block's last wire and step 2 lands where the P ladder does. *)
Lemma linear_mc_gate_step2_canonical (gate : ndarray) :
  is_unitary gate = true ->
  linear_mc_gate.linear_mc_gate gate (mkCircuit 3 None []) [0; 1] 2 =
  ret (mkCircuit 3 None
         [(controlled_root gate (2 # 1) false, [1; 2]);
          (controlled_root gate (2 # 1) false, [0; 2]);
          (CRXGate (pi_over (1 # 1)), [0; 1]);
          (controlled_root gate (2 # 1) true, [1; 2]);
          (CRXGate (neg_pi_over (1 # 1)), [0; 1])]).
Proof.
  intros Hu.
  rewrite linear_mc_gate_unfold by (try assumption; vm_compute; discriminate).
  reflexivity.
Qed.

(** *** [multi_control_z] of functions_oracles.py *)

Lemma functions_multi_control_z_raises (nqubits : Z) :
  0 <= nqubits ->
  functions_oracles.multi_control_z nqubits = ([], Raise TypeError).
Proof.
  intros H. unfold functions_oracles.multi_control_z.
  rewrite new_circuit_ok, bind_ret_l by lia. reflexivity.
Qed.

(** C3.  For every [nqubits >= 2], [multi_control_z(nqubits)] of
    functions_oracles.py returns no circuit: it passes the keyword
    [targ], which is no parameter of [linear_mc_gate], and the call
    raises [TypeError] before any gate is appended. *)
Theorem multi_control_z_raises_TypeError (nqubits : Z) :
  2 <= nqubits ->
  functions_oracles.multi_control_z nqubits = ([], Raise TypeError).
Proof. intros H. apply functions_multi_control_z_raises. lia. Qed.

Lemma multi_control_z_raises_TypeError_witness :
  functions_oracles.multi_control_z 2 = ([], Raise TypeError).
Proof. apply (multi_control_z_raises_TypeError 2). lia. Defined.

(** With the keyword spelled [target], the same call builds the block
    (up to 1026 wires, the Q ladders then spanning at most 1025). *)
Lemma multi_control_z_intended_call (nqubits : Z) (circuit : QuantumCircuit) :
  2 <= nqubits <= 1026 ->
  circuit = mkCircuit nqubits None [] ->
  exists circuit',
    linear_mc_gate.linear_mc_gate_kw
      [("gate", linear_mc_gate.VArray pauli_z);
       ("circuit", linear_mc_gate.VCircuit circuit);
       ("controls", linear_mc_gate.VList (range (nqubits - 1)));
       ("target", linear_mc_gate.VInt (nqubits - 1))]%string
    = ret circuit'.
Proof.
  intros H ->. change (linear_mc_gate.linear_mc_gate_kw _)
    with (linear_mc_gate.linear_mc_gate pauli_z (mkCircuit nqubits None [])
            (range (nqubits - 1)) (nqubits - 1)).
  destruct (linear_mc_gate_canonical pauli_z (nqubits - 1) None) as [c' E];
    [reflexivity | lia |].
  replace (nqubits - 1 + 1) with nqubits in E by lia.
  now exists c'.
Qed.

(** *** Width of the circuit [oracle_less_than] returns *)

Lemma new_circuit_inv (n : Z) nm out (c : QuantumCircuit) :
  new_circuit n nm = (out, Ok c) -> num_qubits c = n /\ 0 <= n.
Proof.
  unfold new_circuit. destruct (n <? 0) eqn:E; [discriminate|].
  intros H. inversion H; subst. apply Z.ltb_ge in E. now split.
Qed.

Lemma resolve_inv (n q : Z) out (r : Z) :
  resolve n q = (out, Ok r) -> 0 <= r < n.
Proof.
  destruct (resolve_cases n q) as [(t & E & Ht)|E]; rewrite E; intros H;
    inversion H; subst; assumption.
Qed.

Lemma append1_inv (c c' : QuantumCircuit) op (q : Z) out :
  append c op [q] = (out, Ok c') ->
  num_qubits c' = num_qubits c /\ 1 <= num_qubits c.
Proof.
  intros H. split; [eapply append_num_qubits; eauto|].
  unfold append in H. destruct (negb (len [q] =? width op)); [discriminate|].
  apply bind_ok_inv in H as (o1 & qs & o2 & H & _ & _).
  cbn [resolve_all] in H.
  apply bind_ok_inv in H as (o3 & r & o4 & H & _ & _).
  apply resolve_inv in H. lia.
Qed.

Lemma oracle_less_than_body_width mcz (number nqubits : Z) name out
      (c : QuantumCircuit) :
  oracle_less_than_body mcz number nqubits name = (out, Ok c) ->
  num_qubits c = nqubits /\ 1 <= nqubits.
Proof.
  unfold oracle_less_than_body. intros H.
  apply bind_ok_inv in H as (o1 & c0 & o1' & H0 & H & _).
  assert (W0 : num_qubits c0 = nqubits).
  { destruct (truthy name); apply new_circuit_inv in H0; tauto. }
  clear H0.
  apply bind_ok_inv in H as (o2 & nb & o2' & _ & H & _).
  apply bind_ok_inv in H as (o3 & s & o3' & _ & H & _).
  apply bind_ok_inv in H as (o4 & first & o4' & _ & H & _).
  apply bind_ok_inv in H as (o5 & c1 & o5' & H1 & H & _).
  assert (W1 : num_qubits c1 = nqubits /\ 1 <= nqubits).
  { destruct (Ascii.eqb first "1").
    - apply bind_ok_inv in H1 as (? & ca & ? & Ha & H1 & _).
      apply bind_ok_inv in H1 as (? & cb & ? & Hb & H1 & _).
      apply append1_inv in Ha, Hb, H1. lia.
    - apply append1_inv in H1. lia. }
  clear H1. destruct W1 as [W1 Hn]. split; [|exact Hn].
  apply bind_ok_inv in H as (o6 & c2 & o6' & H2 & H & _).
  assert (W2 : num_qubits c2 = nqubits).
  { eapply (for_each_invariant (fun c => num_qubits c = nqubits));
      [|exact W1|exact H2].
    intros [position1 value] ca o cb Wa Hstep.
    destruct (Ascii.eqb value "0").
    - apply append1_inv in Hstep. lia.
    - apply bind_ok_inv in Hstep as (? & cx & ? & Hx & Hstep & _).
      apply bind_ok_inv in Hstep as (? & mz & ? & _ & Hstep & _).
      apply bind_ok_inv in Hstep as (? & cy & ? & Hy & Hstep & _).
      apply append1_inv in Hx, Hstep. apply append_num_qubits in Hy. lia. }
  clear H2.
  apply bind_ok_inv in H as (o7 & c3 & o7' & H3 & H & _).
  inversion H; subst c3.
  eapply (for_each_invariant (fun c => num_qubits c = nqubits));
    [|exact W2|exact H3].
  intros [position value] ca o cb Wa Hstep.
  destruct (Ascii.eqb value "0").
  - apply append1_inv in Hstep. lia.
  - inversion Hstep; subst; assumption.
Qed.

(** *** Bits and flips *)

Lemma testbit_one (k : Z) : Z.testbit 1 k = (k =? 0).
Proof. destruct k; reflexivity. Qed.

Lemma testbit_flip (x q r : Z) :
  0 <= r -> Z.testbit (flip x q) r = xorb (Z.testbit x r) (r =? q).
Proof.
  intros Hr. unfold flip. rewrite Z.lxor_spec, Z.shiftl_spec, testbit_one by assumption.
  f_equal. destruct (r =? q) eqn:E.
  - apply Z.eqb_eq in E. apply Z.eqb_eq. lia.
  - apply Z.eqb_neq in E. apply Z.eqb_neq. lia.
Qed.

Lemma testbit_flip_same (x q : Z) :
  0 <= q -> Z.testbit (flip x q) q = negb (Z.testbit x q).
Proof.
  intros H. rewrite testbit_flip, Z.eqb_refl by assumption.
  now destruct (Z.testbit x q).
Qed.

Lemma testbit_flip_other (x q r : Z) :
  0 <= r -> r <> q -> Z.testbit (flip x q) r = Z.testbit x r.
Proof.
  intros H Hn. rewrite testbit_flip by assumption.
  replace (r =? q) with false by (symmetry; now apply Z.eqb_neq).
  now destruct (Z.testbit x r).
Qed.

Lemma flip_flip (x q : Z) : flip (flip x q) q = x.
Proof.
  unfold flip. now rewrite Z.lxor_assoc, Z.lxor_nilpotent, Z.lxor_0_r.
Qed.

(** *** Amplitude arithmetic *)

Lemma aopp_aopp (a : amp) : aopp (aopp a) = a.
Proof. destruct a as [r i]. unfold aopp; simpl. f_equal; ring. Qed.

(** The four gates of the global-phase tail multiply every amplitude
    by -1. *)
Lemma phase_tail_is_minus_identity (psi : state) :
  exists phi, run phase_tail psi = Some phi /\ forall x, phi x = aopp (psi x).
Proof.
  eexists. split; [reflexivity|]. intros x. cbv beta.
  rewrite flip_flip, testbit_flip_same by lia.
  destruct (Z.testbit x 0); cbn [negb]; [reflexivity|].
  reflexivity.
Qed.

(** *** [oracle_greater_than] *)

Lemma bind_congr {A B} (m : py A) (f g : A -> py B) :
  (forall out a, m = (out, Ok a) -> f a = g a) -> bind m f = bind m g.
Proof.
  intros H. destruct m as [out [a|e]]; [|reflexivity].
  unfold bind. now rewrite (H out a eq_refl).
Qed.

(** C6 (amended).  [oracle_greater_than(number, nqubits)] is the
    circuit of [oracle_less_than(number+1, nqubits)] (raising whenever
    that call raises) followed by the four single-qubit gates Z, X, Z, X
    on wire 0, appended in this order; the four compose to minus the
    identity. *)
Theorem oracle_greater_than_is_less_than_plus_tail
        (number nqubits : Z) (name : option str) :
  functions_oracles.oracle_greater_than number nqubits name =
    (circuit <- functions_oracles.oracle_less_than (number + 1) nqubits
                  (Some (match name with
                         | None => lit " > " ++ fmt_d number
                         | Some name => name
                         end)) ;;
     ret (extend circuit [(ZGate, [0]); (XGate, [0]); (ZGate, [0]); (XGate, [0])]))
  /\ forall psi, exists phi,
       run [(ZGate, [0]); (XGate, [0]); (ZGate, [0]); (XGate, [0])] psi = Some phi
       /\ forall x, phi x = aopp (psi x).
Proof.
  split; [|apply phase_tail_is_minus_identity].
  unfold functions_oracles.oracle_greater_than. apply bind_congr.
  intros out c E. apply oracle_less_than_body_width in E as [W Hn].
  unfold z, x.
  rewrite append1_ok, bind_ret_l by (try reflexivity; lia).
  rewrite append1_ok, bind_ret_l by (try reflexivity; simpl; lia).
  rewrite append1_ok, bind_ret_l by (try reflexivity; simpl; lia).
  rewrite append1_ok, bind_ret_l by (try reflexivity; simpl; lia).
  now rewrite !extend_extend.
Qed.

(** C6 (as stated) fails: for number 0 on one qubit the circuit is not
    that of [oracle_less_than(1, 1)] followed by X, Z, X, Z. *)
Lemma oracle_greater_than_tail_not_xzxz :
  functions_oracles.oracle_greater_than 0 1 None <>
    (circuit <- functions_oracles.oracle_less_than (0 + 1) 1
                  (Some (lit " > " ++ fmt_d 0)) ;;
     ret (extend circuit xzxz_tail)).
Proof. vm_compute. discriminate. Qed.

(** *** The threshold string of a number *)

Lemma lstrip_decompose (c : ascii) (s : str) :
  exists k, s = repeat c k ++ lstrip c s.
Proof.
  induction s as [|a s [k IH]]; [now exists O|]. simpl.
  destruct (Ascii.eqb a c) eqn:E.
  - apply Ascii.eqb_eq in E. subst a. exists (S k). simpl. now f_equal.
  - now exists O.
Qed.

Lemma rev_repeat {A} (a : A) (k : nat) : rev (repeat a k) = repeat a k.
Proof.
  induction k as [|k IH]; [reflexivity|]. simpl. rewrite IH. clear IH.
  induction k as [|k IH]; [reflexivity|]. simpl. now rewrite IH.
Qed.

Lemma rstrip_decompose (c : ascii) (s : str) :
  exists k, s = rstrip c s ++ repeat c k.
Proof.
  destruct (lstrip_decompose c (rev s)) as [k E]. exists k.
  unfold rstrip. rewrite <- (rev_involutive s) at 1.
  rewrite E at 1. now rewrite rev_app_distr, rev_repeat.
Qed.

Lemma len_repeat {A} (a : A) (k : nat) : len (repeat a k) = Z.of_nat k.
Proof. unfold len. now rewrite repeat_length. Qed.

Lemma val_app (s t : str) : val (s ++ t) = val s * 2 ^ len t + val t.
Proof.
  induction s as [|c s IH]; [reflexivity|]. cbn [app val].
  rewrite IH, len_app, Z.pow_add_r by apply len_nonneg. ring.
Qed.

Lemma val_zeros (k : nat) : val (repeat "0"%char k) = 0.
Proof. induction k as [|k IH]; [reflexivity|]. cbn [repeat val]. rewrite IH. reflexivity. Qed.

Lemma val_digits (p : positive) : val (digits p) = Zpos p.
Proof.
  induction p as [p IH|p IH|]; cbn [digits]; try rewrite val_app, IH;
    try reflexivity.
  - change (val ["1"%char]) with 1. change (2 ^ len ["1"%char]) with 2. lia.
  - change (val ["0"%char]) with 0. change (2 ^ len ["0"%char]) with 2. lia.
Qed.

Lemma binary_digits (p : positive) : Forall binary_char (digits p).
Proof.
  induction p as [p IH|p IH|]; cbn [digits].
  - apply Forall_app. split; [exact IH|]. constructor; [now right | constructor].
  - apply Forall_app. split; [exact IH|]. constructor; [now left | constructor].
  - constructor; [now right | constructor].
Qed.

Lemma bit_length_fits (number nbits : Z) :
  0 < number < 2 ^ nbits -> 1 <= bit_length number <= nbits.
Proof.
  intros [H0 H1]. unfold bit_length.
  replace (number =? 0) with false by (symmetry; apply Z.eqb_neq; lia).
  pose proof (Z.log2_nonneg number).
  assert (0 <= nbits).
  { destruct (Z.le_gt_cases 0 nbits); [assumption|].
    rewrite Z.pow_neg_r in H1 by lia. lia. }
  apply Z.log2_lt_pow2 in H1; lia.
Qed.

Lemma padded_facts (number nbits : Z) :
  0 < number < 2 ^ nbits ->
  len (padded number nbits) = nbits /\
  val (padded number nbits) = number /\
  Forall binary_char (padded number nbits).
Proof.
  intros H. pose proof (bit_length_fits _ _ H) as Hb. unfold padded.
  rewrite binary_of_nonneg by lia.
  destruct number as [|p|p]; try lia.
  assert (L : len (digits p) = bit_length (Z.pos p)).
  { rewrite len_digits. unfold bit_length. reflexivity. }
  unfold str_mul. repeat split.
  - rewrite len_app, len_repeat, L. lia.
  - rewrite val_app, val_zeros, val_digits. lia.
  - apply Forall_app. split; [|apply binary_digits].
    apply Forall_forall. intros a Ha. apply repeat_spec in Ha. now left.
Qed.

Lemma stripped_facts (number nbits : Z) :
  0 < number < 2 ^ nbits ->
  let s := rstrip "0" (padded number nbits) in
  1 <= len s <= nbits /\
  number = val s * 2 ^ (nbits - len s) /\
  Forall binary_char s.
Proof.
  intros H s. destruct (padded_facts _ _ H) as (Hl & Hv & Hb).
  destruct (rstrip_decompose "0" (padded number nbits)) as [k E]. fold s in E.
  rewrite E in Hl, Hv, Hb. rewrite len_app, len_repeat in Hl.
  rewrite val_app, val_zeros, len_repeat in Hv.
  apply Forall_app in Hb as [Hb _].
  assert (Hk : nbits - len s = Z.of_nat k) by lia.
  split; [|split; [rewrite Hk; lia | exact Hb]].
  pose proof (len_nonneg s). split; [|lia].
  destruct s as [|c s']; [simpl in Hv; lia|]. rewrite len_cons.
  pose proof (len_nonneg s'). lia.
Qed.

(** *** Enumerations *)

Lemma in_enumerate_from {A} (k : Z) (l : list A) (i : Z) (a : A) :
  In (i, a) (enumerate_from k l) -> k <= i < k + len l /\ In a l.
Proof.
  revert k. induction l as [|b l IH]; intros k; simpl; [tauto|].
  rewrite len_cons. pose proof (len_nonneg l) as Hl. intros [E|Hin].
  - inversion E; subst. split; [lia|auto].
  - apply IH in Hin. split; [lia|tauto].
Qed.

(** *** The instruction list of code_oracle.py's [oracle_less_than] *)

Lemma extend_nil (c : QuantumCircuit) : extend c [] = c.
Proof. unfold extend. rewrite app_nil_r. now destruct c. Qed.

Lemma len_range3_down (a b : Z) : len (range3 a b (-1)) = Z.max 0 (a - b).
Proof.
  rewrite range3_down_rev. unfold len. rewrite length_rev.
  fold (len (range2 (b + 1) (a + 1))). rewrite len_range2. lia.
Qed.

Lemma in_range3_down (a b k : Z) : In k (range3 a b (-1)) <-> b < k <= a.
Proof.
  rewrite range3_down_rev, <- in_rev, in_range2. lia.
Qed.

Lemma NoDup_range3_down (a b : Z) : NoDup (range3 a b (-1)).
Proof. rewrite range3_down_rev. apply NoDup_rev, NoDup_range2. Qed.

Lemma code_multi_control_z_ok (k : Z) :
  2 <= k -> code_oracle.multi_control_z k = ret (mcz_circuit k).
Proof.
  intros Hk. unfold code_oracle.multi_control_z, h, new_mcx.
  rewrite new_circuit_ok, bind_ret_l by lia.
  rewrite append1_ok, bind_ret_l by (try reflexivity; simpl; lia).
  replace (k - 1 <? 1) with false by (symmetry; apply Z.ltb_ge; lia).
  rewrite bind_ret_l.
  rewrite append_ok, bind_ret_l.
  - rewrite append1_ok, bind_ret_l by (try reflexivity; simpl; lia).
    reflexivity.
  - rewrite len_range. simpl. lia.
  - intros q Hq. apply in_range in Hq. simpl. lia.
  - apply NoDup_range.
Qed.

Lemma head_gates_ok (c : QuantumCircuit) (n : Z) (first : ascii) :
  num_qubits c = n -> 1 <= n ->
  (if Ascii.eqb first "1" then
     circuit <- x c (n - 1) ;;
     circuit <- z circuit (n - 1) ;;
     x circuit (n - 1)
   else x c (n - 1))
  = ret (extend c (head_gates n first)).
Proof.
  intros W Hn. unfold head_gates, x, z. destruct (Ascii.eqb first "1").
  - rewrite append1_ok, bind_ret_l by (try reflexivity; lia).
    rewrite append1_ok, bind_ret_l by (try reflexivity; simpl; lia).
    rewrite append1_ok by (try reflexivity; simpl; lia).
    now rewrite !extend_extend.
  - now rewrite append1_ok by (try reflexivity; lia).
Qed.

Lemma step_gates_ok (c : QuantumCircuit) (n position1 : Z) (value : ascii) :
  num_qubits c = n -> 0 <= position1 -> position1 + 1 < n ->
  (let position := position1 + 1 in
   if Ascii.eqb value "0" then x c (n - position - 1)
   else
     circuit <- x c (n - position - 1) ;;
     multi_z <- code_oracle.multi_control_z (position + 1) ;;
     circuit <- append circuit (to_gate multi_z)
                  (range3 (n - 1) (n - position - 2) (-1)) ;;
     x circuit (n - position - 1))
  = ret (extend c (step_gates n (position1, value))).
Proof.
  intros W H0 H1. cbv zeta. unfold step_gates, x. cbn [fst snd].
  destruct (Ascii.eqb value "0").
  - now rewrite append1_ok by (try reflexivity; lia).
  - rewrite append1_ok, bind_ret_l by (try reflexivity; lia).
    rewrite code_multi_control_z_ok, bind_ret_l by lia.
    rewrite append_ok, bind_ret_l.
    + rewrite append1_ok by (try reflexivity; simpl; lia).
      now rewrite !extend_extend.
    + rewrite len_range3_down. simpl. lia.
    + intros q Hq. apply in_range3_down in Hq. simpl. lia.
    + apply NoDup_range3_down.
Qed.

Lemma code_oracle_less_than_gates (number nqubits : Z) (name : option str) :
  0 < number < 2 ^ nqubits ->
  code_oracle.oracle_less_than number nqubits name =
  ret (mkCircuit nqubits
         (if truthy name then name
          else Some (lit " < " ++ fmt_d number ++ lit " "))
         (oracle_gates nqubits (rstrip "0" (padded number nqubits)))).
Proof.
  intros H. pose proof (bit_length_fits _ _ H) as Hb.
  destruct (stripped_facts _ _ H) as (Hs & _ & _).
  unfold code_oracle.oracle_less_than, oracle_less_than_body.
  replace (if truthy name then new_circuit nqubits name
           else new_circuit nqubits (Some (lit " < " ++ fmt_d number ++ lit " ")))
    with (ret (mkCircuit nqubits
                 (if truthy name then name
                  else Some (lit " < " ++ fmt_d number ++ lit " ")) []))
    by (destruct (truthy name); now rewrite new_circuit_ok by lia).
  rewrite bind_ret_l.
  rewrite to_binary_fits, !bind_ret_l by lia.
  fold (padded number nqubits). unfold oracle_gates.
  cbv zeta in Hs. revert Hs.
  destruct (rstrip "0" (padded number nqubits)) as [|first rest]; intros Hs;
    [change (len (@nil ascii)) with 0 in Hs; lia|].
  rewrite len_cons in Hs. pose proof (len_nonneg rest) as Hr.
  cbn [first_char hd]. rewrite bind_ret_l.
  rewrite head_gates_ok, bind_ret_l by (simpl; lia).
  rewrite (for_each_extend _ _ (step_gates nqubits)
                           (fun c => num_qubits c = nqubits)); auto.
  2:{ intros [position1 value] c Hin W.
      apply in_enumerate_from in Hin as [Hp _]. cbn [slice_from skipn] in Hp.
      apply (step_gates_ok c nqubits position1 value); lia. }
  rewrite bind_ret_l.
  rewrite (for_each_extend _ _ (final_gates nqubits)
                           (fun c => num_qubits c = nqubits)); auto.
  2:{ intros [position value] c Hin W.
      apply in_enumerate_from in Hin as [Hp _]. rewrite len_cons in Hp.
      unfold final_gates, x. cbn [fst snd]. destruct (Ascii.eqb value "0").
      - now rewrite append1_ok by (try reflexivity; lia).
      - now rewrite extend_nil. }
  rewrite bind_ret_l, !extend_extend. unfold extend. cbn [data num_qubits qiskit.name app].
  reflexivity.
Qed.

(** *** Semantics of the multi-controlled Z block *)

Lemma run_app (l1 l2 : list instruction) (psi : state) :
  run (l1 ++ l2) psi =
  match run l1 psi with Some psi' => run l2 psi' | None => None end.
Proof.
  revert psi. induction l1 as [|[op qargs] l1 IH]; intros psi; [reflexivity|].
  cbn [app run]. destruct (apply op qargs psi); [apply IH | reflexivity].
Qed.

Lemma two_nonzero : (1 + 1 <> 0)%Qc.
Proof. intros H. apply (f_equal this) in H. discriminate H. Qed.

(** Equations between amplitudes, componentwise in the field Q. *)
Ltac amp_field :=
  unfold sgn, amul, aadd, aopp, rsqrt2, aone, azero; cbn [rat irr];
  f_equal; field; apply two_nonzero.

Lemma nth_seq_identity {A} (l : list A) (d : A) :
  map (fun i => nth i l d) (seq 0 (List.length l)) = l.
Proof.
  induction l as [|a l IH]; [reflexivity|].
  cbn [List.length seq map nth]. f_equal.
  rewrite <- seq_shift, map_map. exact IH.
Qed.

Lemma place_range (qargs : list Z) : map (place qargs) (range (len qargs)) = qargs.
Proof.
  unfold range. rewrite range3_up, map_map.
  replace (Z.to_nat (len qargs - 0)) with (List.length qargs) by (unfold len; lia).
  transitivity (map (fun i => nth i qargs 0) (seq 0 (List.length qargs)));
    [|apply nth_seq_identity].
  apply map_ext. intros i. unfold place. f_equal. lia.
Qed.

Lemma place_last (cs : list Z) (t k : Z) :
  len cs = k - 1 -> place (cs ++ [t]) (k - 1) = t.
Proof.
  intros H. unfold place. rewrite app_nth2 by (unfold len in H; lia).
  replace (Z.to_nat (k - 1) - List.length cs)%nat with O by (unfold len in H; lia).
  reflexivity.
Qed.

Lemma apply_mcx (j : Z) (cs : list Z) (t : Z) (psi : state) :
  apply (MCXGate j) (cs ++ [t]) psi =
  Some (fun x => if forallb (Z.testbit x) cs then psi (flip x t) else psi x).
Proof.
  assert (E : apply (MCXGate j) (cs ++ [t]) psi =
              Some (fun x => if forallb (Z.testbit x) (removelast (cs ++ [t]))
                             then psi (flip x (last (cs ++ [t]) 0)) else psi x)).
  { destruct (cs ++ [t]) eqn:E; [now destruct cs | reflexivity]. }
  rewrite E, removelast_last, last_last. reflexivity.
Qed.

Lemma apply_h (q : Z) (psi : state) :
  apply HGate [q] psi =
  Some (fun x => amul rsqrt2
                   (if Z.testbit x q
                    then aadd (psi (flip x q)) (aopp (psi x))
                    else aadd (psi x) (psi (flip x q)))).
Proof. reflexivity. Qed.

Lemma apply_x (q : Z) (psi : state) :
  apply XGate [q] psi = Some (fun x => psi (flip x q)).
Proof. reflexivity. Qed.

Lemma apply_z (q : Z) (psi : state) :
  apply ZGate [q] psi = Some (fun x => sgn (Z.testbit x q) (psi x)).
Proof. reflexivity. Qed.

(** A sub-circuit placed on [qargs] runs its instructions on the
    wires [qargs] assigns them. *)
Lemma apply_gate_run nm (k : Z) (definition : list instruction)
      (qargs : list Z) (psi : state) :
  apply (Gate nm k definition) qargs psi = run (map (remap qargs) definition) psi.
Proof.
  revert psi. induction definition as [|[op qs] l IH]; intros psi; [reflexivity|].
  cbn [map remap fst snd run].
  change (apply (Gate nm k ((op, qs) :: l)) qargs psi)
    with (match apply op (map (place qargs) qs) psi with
          | Some psi' => apply (Gate nm k l) qargs psi'
          | None => None
          end).
  destruct (apply op (map (place qargs) qs) psi); [apply IH | reflexivity].
Qed.

Lemma forallb_flip (x t : Z) (cs : list Z) :
  (forall q, In q cs -> 0 <= q /\ q <> t) ->
  forallb (Z.testbit (flip x t)) cs = forallb (Z.testbit x) cs.
Proof.
  induction cs as [|q cs IH]; intros H; [reflexivity|]. cbn [forallb].
  rewrite IH by (intros; apply H; simpl; auto).
  destruct (H q (or_introl eq_refl)) as [H0 Hq].
  now rewrite testbit_flip_other.
Qed.

(** The block H, MCX, H built by [multi_control_z] flips the sign of
    the basis states that have a one on every wire it is placed on. *)
Lemma mcz_block_sem (k : Z) (cs : list Z) (t : Z) (psi : state) :
  len cs = k - 1 -> 0 <= t ->
  (forall q, In q cs -> 0 <= q /\ q <> t) ->
  exists phi,
    apply (to_gate (mcz_circuit k)) (cs ++ [t]) psi = Some phi /\
    forall x, phi x = sgn (forallb (Z.testbit x) (cs ++ [t])) (psi x).
Proof.
  intros Hl Ht Hcs.
  assert (Hk : k = len (cs ++ [t])) by (rewrite len_app, Hl; change (len [t]) with 1; lia).
  unfold to_gate, mcz_circuit. cbn [data num_qubits qiskit.name].
  rewrite apply_gate_run. cbn [run map remap fst snd].
  rewrite place_last by assumption.
  replace (range k) with (range (len (cs ++ [t]))) by now rewrite <- Hk.
  rewrite place_range.
  rewrite apply_h, apply_mcx, apply_h.
  eexists. split; [reflexivity|]. intros x. cbv beta.
  rewrite forallb_app. cbn [forallb]. rewrite andb_true_r.
  rewrite !flip_flip, !testbit_flip_same, forallb_flip by assumption.
  generalize (psi x) (psi (flip x t)). intros [a1 a2] [b1 b2].
  destruct (forallb (Z.testbit x) cs), (Z.testbit x t); cbn [negb andb sgn];
    amp_field.
Qed.

(** *** Bits of the mask and of the comparison predicates *)

Lemma testbit_shiftl_one (w j : Z) :
  0 <= j -> Z.testbit (Z.shiftl 1 w) j = (j =? w).
Proof.
  intros H. rewrite Z.shiftl_spec, testbit_one by assumption.
  destruct (j =? w) eqn:E.
  - apply Z.eqb_eq in E. apply Z.eqb_eq. lia.
  - apply Z.eqb_neq in E. apply Z.eqb_neq. lia.
Qed.

Lemma lxor_flip (x m w : Z) :
  Z.lxor (flip x w) m = Z.lxor x (Z.lxor m (Z.shiftl 1 w)).
Proof.
  unfold flip. rewrite Z.lxor_assoc. f_equal. apply Z.lxor_comm.
Qed.

Lemma lxor_twice (x m : Z) : Z.lxor (Z.lxor x m) m = x.
Proof. now rewrite Z.lxor_assoc, Z.lxor_nilpotent, Z.lxor_0_r. Qed.

(** The mask has bits only on the wires its string covers. *)
Lemma testbit_mask_outside (s : str) (w j : Z) :
  0 <= j -> (w < j \/ j <= w - len s) -> Z.testbit (mask w s) j = false.
Proof.
  revert w. induction s as [|c s IH]; intros w Hj Hout.
  - apply Z.testbit_0_l.
  - cbn [mask]. rewrite len_cons in Hout. pose proof (len_nonneg s).
    rewrite Z.lxor_spec, IH by lia.
    destruct (bit c); [now rewrite Z.testbit_0_l|].
    rewrite testbit_shiftl_one by assumption.
    replace (j =? w) with false by (symmetry; apply Z.eqb_neq; lia).
    reflexivity.
Qed.

Lemma agree_ext (s : str) (w y y' : Z) :
  (forall j, w - len s < j <= w -> Z.testbit y j = Z.testbit y' j) ->
  agree w s y = agree w s y'.
Proof.
  revert w. induction s as [|c s IH]; intros w H; [reflexivity|].
  cbn [agree]. rewrite len_cons in H. pose proof (len_nonneg s).
  rewrite (H w) by lia. f_equal. apply IH. intros j Hj. apply H. lia.
Qed.

Lemma below_ext (s : str) (w y y' : Z) :
  (forall j, w - len s < j <= w -> Z.testbit y j = Z.testbit y' j) ->
  below w s y = below w s y'.
Proof.
  revert w. induction s as [|c s IH]; intros w H; [reflexivity|].
  cbn [below]. rewrite len_cons in H. pose proof (len_nonneg s).
  rewrite (H w) by lia. rewrite (IH (w - 1)); [reflexivity|].
  intros j Hj. apply H. lia.
Qed.

Lemma agree_snoc (pre : str) (c : ascii) (w y : Z) :
  agree w (pre ++ [c]) y =
  agree w pre y && Bool.eqb (Z.testbit y (w - len pre)) (bit c).
Proof.
  revert w. induction pre as [|a pre IH]; intros w.
  - cbn [app agree]. change (len (@nil ascii)) with 0.
    rewrite Z.sub_0_r, andb_true_r. reflexivity.
  - cbn [app agree]. rewrite IH, len_cons, andb_assoc.
    do 3 f_equal. lia.
Qed.

Lemma below_snoc (pre : str) (c : ascii) (w y : Z) :
  below w (pre ++ [c]) y =
  below w pre y || (agree w pre y && bit c && negb (Z.testbit y (w - len pre))).
Proof.
  revert w. induction pre as [|a pre IH]; intros w.
  - cbn [app below agree]. change (len (@nil ascii)) with 0. rewrite Z.sub_0_r.
    destruct (Z.testbit y w), (bit c); reflexivity.
  - cbn [app below agree]. rewrite IH, len_cons.
    replace (w - (1 + len pre)) with (w - 1 - len pre) by lia.
    destruct (Bool.eqb (Z.testbit y w) (bit a)); cbn [andb];
      [reflexivity | now rewrite orb_false_r].
Qed.

Lemma mask_snoc (pre : str) (c : ascii) (w : Z) :
  mask w (pre ++ [c]) =
  Z.lxor (mask w pre) (if bit c then 0 else Z.shiftl 1 (w - len pre)).
Proof.
  revert w. induction pre as [|a pre IH]; intros w.
  - cbn [app mask]. change (len (@nil ascii)) with 0.
    now rewrite Z.sub_0_r, Z.lxor_0_r, Z.lxor_0_l.
  - cbn [app mask]. rewrite IH, len_cons, Z.lxor_assoc.
    replace (w - (1 + len pre)) with (w - 1 - len pre) by lia. reflexivity.
Qed.

Lemma below_excludes_agree (s : str) (w y : Z) :
  below w s y = true -> agree w s y = false.
Proof.
  revert w. induction s as [|c s IH]; intros w; cbn [below agree]; [discriminate|].
  destruct (Bool.eqb (Z.testbit y w) (bit c)); cbn [andb]; auto.
Qed.

Lemma wires_down_S (w : Z) (k : nat) :
  wires_down w (S k) = w :: wires_down (w - 1) k.
Proof.
  unfold wires_down. cbn [seq map]. f_equal; [lia|].
  rewrite <- seq_shift, map_map. apply map_ext. intros; lia.
Qed.

Lemma in_wires_down (w : Z) (k : nat) (q : Z) :
  In q (wires_down w k) -> w - Z.of_nat k < q <= w.
Proof.
  unfold wires_down. rewrite in_map_iff. intros (i & <- & Hi).
  apply in_seq in Hi. lia.
Qed.

(** After the X gates for the zeros of [pre], the wires of [pre] all
    carry a one exactly when the original index agrees with [pre]. *)
Lemma all_ones_agree (pre : str) (w x : Z) :
  -1 <= w - len pre ->
  forallb (Z.testbit x) (wires_down w (List.length pre))
  = agree w pre (Z.lxor x (mask w pre)).
Proof.
  revert w. induction pre as [|c pre IH]; intros w Hw; [reflexivity|].
  rewrite len_cons in Hw. pose proof (len_nonneg pre).
  cbn [List.length]. rewrite wires_down_S. cbn [forallb agree mask].
  rewrite IH by lia. f_equal.
  - rewrite !Z.lxor_spec, testbit_mask_outside by lia.
    destruct (bit c).
    + rewrite Z.testbit_0_l. now destruct (Z.testbit x w).
    + rewrite testbit_shiftl_one, Z.eqb_refl by lia. now destruct (Z.testbit x w).
  - apply agree_ext. intros j Hj. rewrite !Z.lxor_spec. do 2 f_equal.
    destruct (bit c); [now rewrite Z.testbit_0_l|].
    rewrite testbit_shiftl_one by lia.
    replace (j =? w) with false by (symmetry; apply Z.eqb_neq; lia).
    reflexivity.
Qed.

(** *** Semantics of the less-than oracle, character by character *)

Lemma binary_char_cases (c : ascii) :
  binary_char c ->
  (Ascii.eqb c "0" = true /\ Ascii.eqb c "1" = false /\ bit c = false) \/
  (Ascii.eqb c "0" = false /\ Ascii.eqb c "1" = true /\ bit c = true).
Proof. intros [-> | ->]; [left | right]; repeat split. Qed.

Lemma head_sem (n : Z) (c : ascii) (psi : state) :
  1 <= n -> binary_char c ->
  exists phi, run (head_gates n c) psi = Some phi /\ marked_after n [c] psi phi.
Proof.
  intros Hn Hc. unfold head_gates, marked_after.
  destruct (binary_char_cases c Hc) as [(_ & E1 & Eb) | (_ & E1 & Eb)];
    rewrite E1; cbn [run]; rewrite ?apply_x, ?apply_z;
    (eexists; split; [reflexivity|]); intros x; cbv beta;
    cbn [mask below]; rewrite Eb.
  - rewrite Z.lxor_0_r. fold (flip x (n - 1)).
    now destruct (Z.testbit (flip x (n - 1)) (n - 1)).
  - rewrite flip_flip, testbit_flip_same, !Z.lxor_0_r by lia.
    now destruct (Z.testbit x (n - 1)).
Qed.

Lemma range3_wires (n : Z) (pre : str) :
  range3 (n - 1) (n - len pre - 2) (-1)
  = wires_down (n - 1) (List.length pre) ++ [n - 1 - len pre].
Proof.
  rewrite range3_down. unfold wires_down.
  replace (Z.to_nat (n - 1 - (n - len pre - 2))) with (S (List.length pre))
    by (unfold len; lia).
  rewrite seq_S, map_app. cbn [map plus]. reflexivity.
Qed.

Lemma step_sem (n : Z) (pre : str) (c : ascii) (psi phi : state) :
  1 <= len pre -> len pre < n -> binary_char c ->
  marked_after n pre psi phi ->
  exists phi',
    run (step_gates n (len pre - 1, c)) phi = Some phi' /\
    marked_after n (pre ++ [c]) psi phi'.
Proof.
  intros Hp Hn Hc Inv. unfold step_gates. cbn [fst snd].
  replace (len pre - 1 + 1) with (len pre) by lia.
  replace (n - len pre - 1) with (n - 1 - len pre) by lia.
  set (w := n - 1 - len pre).
  destruct (binary_char_cases c Hc) as [(E0 & _ & Eb) | (E0 & _ & Eb)];
    rewrite E0.
  - cbn [run]. rewrite apply_x. eexists. split; [reflexivity|].
    intros x. cbv beta. rewrite Inv, mask_snoc, below_snoc, Eb.
    rewrite andb_false_r, orb_false_r. cbn [andb].
    fold w. now rewrite lxor_flip.
  - rewrite range3_wires. fold w.
    assert (Hcs : forall q, In q (wires_down (n - 1) (List.length pre)) ->
                            0 <= q /\ q <> w).
    { intros q Hq. apply in_wires_down in Hq. unfold len in *. lia. }
    cbn [run]. rewrite apply_x.
    destruct (mcz_block_sem (len pre + 1)
                (wires_down (n - 1) (List.length pre)) w
                (fun x => phi (flip x w)))
      as (phi2 & E2 & H2); [unfold wires_down, len;
                            rewrite length_map, length_seq; lia
                           | unfold w; lia | exact Hcs |].
    rewrite E2, apply_x. eexists. split; [reflexivity|].
    intros x. cbv beta. rewrite H2, flip_flip, forallb_app. cbn [forallb].
    rewrite andb_true_r, forallb_flip, testbit_flip_same by (auto; unfold w; lia).
    rewrite all_ones_agree by lia.
    rewrite Inv, mask_snoc, below_snoc, Eb, Z.lxor_0_r. fold w.
    set (y := Z.lxor x (mask (n - 1) pre)).
    assert (Ew : Z.testbit y w = Z.testbit x w).
    { unfold y. rewrite Z.lxor_spec, testbit_mask_outside by (unfold w; lia).
      now destruct (Z.testbit x w). }
    rewrite Ew. pose proof (below_excludes_agree pre (n - 1) y) as Hex.
    destruct (below (n - 1) pre y); [rewrite Hex by reflexivity; reflexivity|].
    destruct (agree (n - 1) pre y), (Z.testbit x w); reflexivity.
Qed.

Lemma loop_sem (n : Z) (psi : state) (rest : str) :
  forall (pre : str) (phi : state),
    1 <= len pre -> len pre + len rest <= n ->
    Forall binary_char rest ->
    marked_after n pre psi phi ->
    exists phi',
      run (flat_map (step_gates n) (enumerate_from (len pre - 1) rest)) phi
      = Some phi' /\
      marked_after n (pre ++ rest) psi phi'.
Proof.
  induction rest as [|c rest IH]; intros pre phi Hp Hn Hb Inv.
  - exists phi. rewrite app_nil_r. now split.
  - rewrite len_cons in Hn. pose proof (len_nonneg rest).
    inversion Hb as [|? ? Hc Hb']; subst.
    destruct (step_sem n pre c psi phi) as (phi1 & E1 & Inv1);
      [lia | lia | assumption | assumption |].
    destruct (IH (pre ++ [c]) phi1) as (phi2 & E2 & Inv2);
      [rewrite len_app; change (len [c]) with 1; lia
      |rewrite len_app; change (len [c]) with 1; lia
      |assumption | assumption |].
    exists phi2. cbn [enumerate_from flat_map]. rewrite run_app, E1.
    replace (len pre - 1 + 1) with (len (pre ++ [c]) - 1)
      by (rewrite len_app; change (len [c]) with 1; lia).
    split; [exact E2|]. now rewrite <- app_assoc in Inv2.
Qed.

Lemma final_sem (n : Z) (s : str) :
  forall (k : Z) (phi : state),
    Forall binary_char s ->
    exists phi',
      run (flat_map (final_gates n) (enumerate_from k s)) phi = Some phi' /\
      forall x, phi' x = phi (Z.lxor x (mask (n - k - 1) s)).
Proof.
  induction s as [|c s IH]; intros k phi Hb.
  - exists phi. split; [reflexivity|]. intros x. cbn [mask]. now rewrite Z.lxor_0_r.
  - inversion Hb as [|? ? Hc Hb']; subst.
    cbn [enumerate_from flat_map mask]. unfold final_gates at 1. cbn [fst snd].
    destruct (binary_char_cases c Hc) as [(E0 & _ & Eb) | (E0 & _ & Eb)];
      rewrite E0, Eb.
    + cbn [app run]. rewrite apply_x.
      destruct (IH (k + 1) (fun x => phi (flip x (n - k - 1))) Hb')
        as (phi' & E & H).
      exists phi'. split; [exact E|]. intros x. rewrite H.
      replace (n - (k + 1) - 1) with (n - k - 1 - 1) by lia.
      unfold flip. rewrite Z.lxor_assoc. do 2 f_equal. apply Z.lxor_comm.
    + cbn [app]. destruct (IH (k + 1) phi Hb') as (phi' & E & H).
      exists phi'. split; [exact E|]. intros x. rewrite H, Z.lxor_0_l.
      now replace (n - (k + 1) - 1) with (n - k - 1 - 1) by lia.
Qed.

(** The whole instruction list: a minus sign on exactly the indices
    whose bits, read from the top wire, are below the string. *)
Lemma oracle_gates_sem (n : Z) (s : str) (psi : state) :
  1 <= len s <= n -> Forall binary_char s ->
  exists phi,
    run (oracle_gates n s) psi = Some phi /\
    forall x, phi x = sgn (below (n - 1) s x) (psi x).
Proof.
  intros Hl Hb. destruct s as [|first rest];
    [change (len (@nil ascii)) with 0 in Hl; lia|].
  rewrite len_cons in Hl. pose proof (len_nonneg rest).
  inversion Hb as [|? ? Hc Hb']; subst.
  unfold oracle_gates, enumerate. cbn [hd slice_from skipn].
  destruct (head_sem n first psi) as (phi0 & E0 & Inv0); [lia | assumption |].
  destruct (loop_sem n psi rest [first] phi0) as (phi1 & E1 & Inv1);
    [change (len [first]) with 1; lia
    |change (len [first]) with 1; lia | assumption | assumption |].
  change (len [first] - 1) with 0 in E1. cbn [app] in Inv1.
  destruct (final_sem n (first :: rest) 0 phi1 Hb) as (phi2 & E2 & H2).
  exists phi2. rewrite run_app, E0, run_app, E1. split; [exact E2|].
  intros x. rewrite H2, Inv1. replace (n - 0 - 1) with (n - 1) by lia.
  rewrite lxor_twice. reflexivity.
Qed.

(** *** From bits to numbers *)

Lemma val_bound (s : str) : 0 <= val s < 2 ^ len s.
Proof.
  induction s as [|c s IH]; [change (2 ^ len (@nil ascii)) with 1; simpl; lia|].
  cbn [val]. rewrite len_cons, Z.pow_add_r by (try apply len_nonneg; lia).
  change (2 ^ 1) with 2. destruct (bit c); cbn [Z.b2z]; lia.
Qed.

Lemma below_zeros (w : Z) (k : nat) (x : Z) :
  below w (repeat "0"%char k) x = false.
Proof.
  revert w. induction k as [|k IH]; intros w; [reflexivity|].
  cbn [repeat below]. rewrite IH. now destruct (Bool.eqb _ _).
Qed.

Lemma below_app_zeros (s : str) (w : Z) (k : nat) (x : Z) :
  below w (s ++ repeat "0"%char k) x = below w s x.
Proof.
  revert w. induction s as [|c s IH]; intros w; [apply below_zeros|].
  cbn [app below]. now rewrite IH.
Qed.

Lemma split_top_bit (w x : Z) :
  0 <= w -> 0 <= x < 2 ^ (w + 1) ->
  x = Z.b2z (Z.testbit x w) * 2 ^ w + x mod 2 ^ w.
Proof.
  intros Hw Hx. rewrite Z.testbit_spec' by assumption.
  assert (Hp : 0 < 2 ^ w) by (apply Z.pow_pos_nonneg; lia).
  rewrite Z.pow_add_r in Hx by lia. change (2 ^ 1) with 2 in Hx.
  assert (Hq : 0 <= x / 2 ^ w < 2).
  { split; [apply Z.div_pos; lia|]. apply Z.div_lt_upper_bound; lia. }
  rewrite (Z.mod_small (x / 2 ^ w) 2) by assumption.
  rewrite Z.mul_comm. apply Z.div_mod. lia.
Qed.

(** On [w+1] wires, being below the string is being less than the
    number it denotes. *)
Lemma below_val (s : str) :
  forall w x, len s = w + 1 -> 0 <= x < 2 ^ (w + 1) -> below w s x = (x <? val s).
Proof.
  induction s as [|c s IH]; intros w x Hl Hx.
  - change (len (@nil ascii)) with 0 in Hl. replace (w + 1) with 0 in Hx by lia.
    change (2 ^ 0) with 1 in Hx. replace x with 0 by lia. reflexivity.
  - rewrite len_cons in Hl. pose proof (len_nonneg s) as Hs.
    assert (Hw : 0 <= w) by lia.
    assert (Hp : 0 < 2 ^ w) by (apply Z.pow_pos_nonneg; lia).
    pose proof (split_top_bit w x Hw Hx) as Ex.
    pose proof (Z.mod_pos_bound x (2 ^ w) Hp) as Hm.
    assert (Els : len s = w) by lia.
    pose proof (val_bound s) as Hv. rewrite Els in Hv.
    cbn [below val]. rewrite Els.
    rewrite (below_ext s (w - 1) x (x mod 2 ^ w)).
    2:{ intros j Hj. symmetry. apply Z.mod_pow2_bits_low. lia. }
    rewrite (IH (w - 1) (x mod 2 ^ w)) by (try replace (w - 1 + 1) with w by lia; lia).
    destruct (Z.testbit x w), (bit c); cbn [Bool.eqb Z.b2z] in *.
    + destruct (Z.ltb_spec (x mod 2 ^ w) (val s)), (Z.ltb_spec x (1 * 2 ^ w + val s));
        try reflexivity; lia.
    + symmetry. apply Z.ltb_ge. lia.
    + symmetry. apply Z.ltb_lt. lia.
    + destruct (Z.ltb_spec (x mod 2 ^ w) (val s)), (Z.ltb_spec x (0 * 2 ^ w + val s));
        try reflexivity; lia.
Qed.

Lemma below_stripped (number nbits x : Z) :
  0 < number < 2 ^ nbits -> 0 <= x < 2 ^ nbits ->
  below (nbits - 1) (rstrip "0" (padded number nbits)) x = (x <? number).
Proof.
  intros H Hx. destruct (padded_facts _ _ H) as (Hl & Hv & _).
  destruct (rstrip_decompose "0" (padded number nbits)) as [k E].
  rewrite <- (below_app_zeros _ _ k), <- E.
  rewrite (below_val _ (nbits - 1) x), Hv;
    [reflexivity | lia | now replace (nbits - 1 + 1) with nbits by lia].
Qed.

(** *** The less-than oracle of code_oracle.py is correct *)

(** The instruction list for a threshold [0 < N < 2^n] acts on every
    state vector as the diagonal of phases. *)
Lemma oracle_gates_phase (number nqubits : Z) (psi : state) :
  0 < number < 2 ^ nqubits ->
  exists phi,
    run (oracle_gates nqubits (rstrip "0" (padded number nqubits))) psi = Some phi /\
    forall x, 0 <= x < 2 ^ nqubits ->
              phi x = amul (phase_less_than number x) (psi x).
Proof.
  intros H. destruct (stripped_facts _ _ H) as (Hl & _ & Hb).
  destruct (oracle_gates_sem nqubits _ psi Hl Hb) as (phi & E & Hphi).
  exists phi. split; [exact E|]. intros x Hx.
  rewrite Hphi, below_stripped by assumption.
  unfold phase_less_than. generalize (psi x). intros [a1 a2].
  destruct (x <? number); amp_field.
Qed.

Lemma oracle_gates_basis (number nqubits y : Z) :
  0 < number < 2 ^ nqubits -> 0 <= y < 2 ^ nqubits ->
  exists phi,
    run (oracle_gates nqubits (rstrip "0" (padded number nqubits))) (basis y)
    = Some phi /\
    forall x, phi x = amul (phase_less_than number y) (basis y x).
Proof.
  intros H Hy. destruct (stripped_facts _ _ H) as (Hl & _ & Hb).
  destruct (oracle_gates_sem nqubits _ (basis y) Hl Hb) as (phi & E & Hphi).
  exists phi. split; [exact E|]. intros x. rewrite Hphi.
  unfold basis, phase_less_than. destruct (x =? y) eqn:Exy.
  - apply Z.eqb_eq in Exy. subst x. rewrite below_stripped by assumption.
    destruct (y <? number); amp_field.
  - destruct (below _ _ x), (y <? number); amp_field.
Qed.

(** For [0 < N < 2^nqubits], [oracle_less_than(N, nqubits)] of
    code_oracle.py returns a circuit that maps every basis state [|y>]
    with [0 <= y < 2^nqubits] to itself times -1 if [y < N] and times
    +1 otherwise. *)
Theorem code_oracle_less_than_marks (number nqubits : Z) (name : option str) :
  0 < number < 2 ^ nqubits ->
  exists circuit,
    code_oracle.oracle_less_than number nqubits name = ret circuit /\
    num_qubits circuit = nqubits /\
    forall y, 0 <= y < 2 ^ nqubits ->
      exists phi,
        run (data circuit) (basis y) = Some phi /\
        forall x, phi x = amul (phase_less_than number y) (basis y x).
Proof.
  intros H. eexists. split; [now apply code_oracle_less_than_gates|].
  split; [reflexivity|]. intros y Hy. cbn [data].
  now apply oracle_gates_basis.
Qed.

Lemma code_oracle_less_than_marks_witness :
  exists circuit,
    code_oracle.oracle_less_than 5 3 None = ret circuit /\
    num_qubits circuit = 3 /\
    forall y, 0 <= y < 2 ^ 3 ->
      exists phi,
        run (data circuit) (basis y) = Some phi /\
        forall x, phi x = amul (phase_less_than 5 y) (basis y x).
Proof. apply (code_oracle_less_than_marks 5 3 None). lia. Defined.

(** *** The diagonal construction *)

Lemma len_array_less_than (number N : Z) :
  0 <= number <= N -> len (functions_oracles.array_less_than number N) = N.
Proof.
  intros H. unfold functions_oracles.array_less_than.
  rewrite len_app, !len_repeat. lia.
Qed.

(** The vector holds -1 at the indices below [number] and +1 from
    [number] on. *)
Lemma array_less_than_nth (number N i : Z) :
  0 <= number <= N -> 0 <= i < N ->
  nth (Z.to_nat i) (functions_oracles.array_less_than number N) 0
  = if i <? number then -1 else 1.
Proof.
  intros H Hi. unfold functions_oracles.array_less_than.
  destruct (Z.ltb_spec i number).
  - rewrite app_nth1 by (rewrite repeat_length; lia).
    apply nth_repeat_lt. lia.
  - rewrite app_nth2 by (rewrite repeat_length; lia).
    rewrite repeat_length. apply nth_repeat_lt. lia.
Qed.

Lemma diagonal_oracle_less_than_ok (number nqubits : Z) (name : option str) :
  1 <= nqubits -> 0 <= number <= 2 ^ nqubits ->
  functions_oracles.diagonal_oracle_less_than number nqubits name =
  ret (mkCircuit nqubits name
         [(Diagonal (functions_oracles.array_less_than number (2 ^ nqubits)),
           range nqubits)]).
Proof.
  intros Hn H. unfold functions_oracles.diagonal_oracle_less_than.
  replace (nqubits <? 0) with false by (symmetry; apply Z.ltb_ge; lia).
  rewrite bind_ret_l. unfold new_diagonal.
  rewrite len_array_less_than, Z.log2_pow2, Z.eqb_refl by (assumption || lia).
  replace (1 <=? nqubits) with true by (symmetry; apply Z.leb_le; lia).
  cbn [andb]. rewrite bind_ret_l.
  rewrite new_circuit_ok, bind_ret_l by lia.
  rewrite append_ok, bind_ret_l; [reflexivity | | |apply NoDup_range].
  - cbn [width]. rewrite len_array_less_than, Z.log2_pow2, len_range
      by (assumption || lia).
    lia.
  - intros q Hq. apply in_range in Hq. exact Hq.
Qed.

Lemma index_on_range2 (k : nat) (a x : Z) :
  0 <= a -> 0 <= x ->
  index_on (range2 a (a + Z.of_nat k)) x = (x / 2 ^ a) mod 2 ^ Z.of_nat k.
Proof.
  revert a. induction k as [|k IH]; intros a Ha Hx.
  - unfold range2. rewrite range3_up. replace (a + Z.of_nat 0 - a) with 0 by lia.
    cbn [Z.to_nat seq map index_on]. change (2 ^ Z.of_nat 0) with 1.
    now rewrite Z.mod_1_r.
  - unfold range2. rewrite range3_up.
    replace (Z.to_nat (a + Z.of_nat (S k) - a)) with (S k) by lia.
    cbn [seq map index_on]. rewrite <- seq_shift, map_map.
    replace (a + Z.of_nat 0) with a by lia.
    assert (E : map (fun i => a + Z.of_nat (S i)) (seq 0 k)
                = range2 (a + 1) (a + 1 + Z.of_nat k)).
    { unfold range2. rewrite range3_up.
      replace (Z.to_nat (a + 1 + Z.of_nat k - (a + 1))) with k by lia.
      apply map_ext. intros; lia. }
    rewrite E, IH by lia.
    rewrite Z.testbit_spec' by assumption.
    replace (Z.of_nat (S k)) with (1 + Z.of_nat k) by lia.
    rewrite (Z.pow_add_r 2 1), (Z.pow_add_r 2 a 1) by lia. change (2 ^ 1) with 2.
    assert (0 < 2 ^ a) by (apply Z.pow_pos_nonneg; lia).
    assert (0 < 2 ^ Z.of_nat k) by (apply Z.pow_pos_nonneg; lia).
    rewrite Z.rem_mul_r by lia. rewrite Z.div_div by lia. reflexivity.
Qed.

Lemma index_on_range (n x : Z) :
  0 <= n -> 0 <= x < 2 ^ n -> index_on (range n) x = x.
Proof.
  intros Hn Hx. unfold range. fold (range2 0 n).
  replace n with (0 + Z.of_nat (Z.to_nat n)) at 1 by lia.
  rewrite index_on_range2 by lia. change (2 ^ 0) with 1. rewrite Z.div_1_r.
  rewrite Z2Nat.id by assumption. apply Z.mod_small. exact Hx.
Qed.

Lemma of_Z_one : of_Z 1 = aone.
Proof. reflexivity. Qed.

Lemma of_Z_minus_one : of_Z (-1) = aopp aone.
Proof. unfold of_Z, aopp, aone. cbn [rat irr]. f_equal; apply Qc_is_canon; reflexivity. Qed.

Lemma diagonal_phase (number nqubits : Z) (psi : state) :
  1 <= nqubits -> 0 <= number <= 2 ^ nqubits ->
  exists phi,
    run [(Diagonal (functions_oracles.array_less_than number (2 ^ nqubits)),
          range nqubits)] psi = Some phi /\
    forall x, 0 <= x < 2 ^ nqubits ->
              phi x = amul (phase_less_than number x) (psi x).
Proof.
  intros Hn H. cbn [run apply]. eexists. split; [reflexivity|].
  intros x Hx. cbv beta.
  rewrite index_on_range, array_less_than_nth by (assumption || lia).
  unfold phase_less_than.
  destruct (x <? number); [now rewrite of_Z_minus_one | now rewrite of_Z_one].
Qed.

(** For every [nqubits >= 1] and [0 <= N <= 2^nqubits] the diagonal oracle is built and
    multiplies the amplitude of each basis index [x] by -1 if [x < N]
    and by +1 otherwise. *)
Theorem diagonal_oracle_less_than_marks (number nqubits : Z) (name : option str) :
  1 <= nqubits -> 0 <= number <= 2 ^ nqubits ->
  exists circuit,
    functions_oracles.diagonal_oracle_less_than number nqubits name = ret circuit /\
    forall psi, exists phi,
      run (data circuit) psi = Some phi /\
      forall x, 0 <= x < 2 ^ nqubits ->
                phi x = amul (phase_less_than number x) (psi x).
Proof.
  intros Hn H. eexists. split; [now apply diagonal_oracle_less_than_ok|].
  intros psi. cbn [data]. now apply diagonal_phase.
Qed.

(** Cross-validation where both constructions return: for
    [0 < N < 2^nqubits] the diagonal oracle and the bit-by-bit oracle
    of code_oracle.py give every basis state the same phase. *)
Theorem diagonal_matches_code_oracle (number nqubits : Z) :
  0 < number < 2 ^ nqubits ->
  exists diagonal circuit,
    functions_oracles.diagonal_oracle_less_than number nqubits None = ret diagonal /\
    code_oracle.oracle_less_than number nqubits None = ret circuit /\
    forall y, 0 <= y < 2 ^ nqubits ->
      exists phi phi',
        run (data diagonal) (basis y) = Some phi /\
        run (data circuit) (basis y) = Some phi' /\
        forall x, 0 <= x < 2 ^ nqubits -> phi x = phi' x.
Proof.
  intros H. pose proof (bit_length_fits _ _ H) as Hb.
  do 2 eexists.
  split; [apply diagonal_oracle_less_than_ok; lia|].
  split; [now apply code_oracle_less_than_gates|]. intros y Hy. cbn [data].
  destruct (diagonal_phase number nqubits (basis y)) as (phi & E & Hphi);
    [lia | lia |].
  destruct (oracle_gates_basis number nqubits y H Hy) as (phi' & E' & Hphi').
  exists phi, phi'. split; [exact E|]. split; [exact E'|].
  intros x Hx. rewrite Hphi, Hphi' by assumption.
  unfold basis. destruct (x =? y) eqn:Exy.
  - apply Z.eqb_eq in Exy. now subst.
  - unfold phase_less_than. destruct (x <? number), (y <? number); amp_field.
Qed.

(** C5.  The two constructions of functions_oracles.py part at
    [N = 3] on two qubits: the diagonal oracle returns the diagonal
    [-1, -1, -1, +1] while [oracle_less_than] raises [TypeError].  They
    part again at [N = 0], which every width can represent: the
    diagonal oracle returns the all-plus diagonal, while
    [oracle_less_than] raises [IndexError] in either file. *)
Theorem diagonal_and_oracle_part :
  functions_oracles.diagonal_oracle_less_than 3 2 None
    = ret (mkCircuit 2 None [(Diagonal [-1; -1; -1; 1], [0; 1])]) /\
  functions_oracles.oracle_less_than 3 2 None = ([], Raise TypeError) /\
  functions_oracles.diagonal_oracle_less_than 0 1 None
    = ret (mkCircuit 1 None [(Diagonal [1; 1], [0])]) /\
  functions_oracles.oracle_less_than 0 1 None = ([], Raise IndexError) /\
  code_oracle.oracle_less_than 0 1 None = ([], Raise IndexError).
Proof. repeat split. Qed.

(** *** The less-than oracle of functions_oracles.py *)

Lemma lstrip_head (c a : ascii) (s t : str) : lstrip c s = a :: t -> a <> c.
Proof.
  induction s as [|b s IH]; simpl; [discriminate|].
  destruct (Ascii.eqb b c) eqn:E; [exact IH|].
  intros H. inversion H; subst. now apply Ascii.eqb_neq.
Qed.

Lemma rstrip_last (c a : ascii) (s t : str) : rstrip c s = t ++ [a] -> a <> c.
Proof.
  unfold rstrip. intros H. apply (f_equal (@rev ascii)) in H.
  rewrite rev_involutive, rev_app_distr in H. cbn [rev app] in H.
  now apply lstrip_head in H.
Qed.

(** The loop over the later characters stops with [TypeError] at the
    first 1 it meets. *)
Lemma functions_loop_raises (n : Z) (rest : str) :
  forall (k : Z) (c0 : QuantumCircuit),
    In "1"%char rest -> Forall binary_char rest ->
    num_qubits c0 = n -> 0 <= k -> k + len rest < n ->
    for_each (enumerate_from k rest)
      (fun '(position1, value) circuit =>
         let position := position1 + 1 in
         if Ascii.eqb value "0" then
           x circuit (n - position - 1)
         else
           circuit <- x circuit (n - position - 1) ;;
           multi_z <- functions_oracles.multi_control_z (position + 1) ;;
           circuit <- append circuit (to_gate multi_z)
                        (range3 (n - 1) (n - position - 2) (-1)) ;;
           x circuit (n - position - 1)) c0
    = ([], Raise TypeError).
Proof.
  induction rest as [|c rest IH]; intros k c0 Hin Hb W Hk Hn; [destruct Hin|].
  rewrite len_cons in Hn. pose proof (len_nonneg rest).
  inversion Hb as [|? ? Hc Hb']; subst.
  cbn [enumerate_from for_each]. cbv zeta. unfold x at 1 2.
  destruct (binary_char_cases c Hc) as [(E0 & E1 & _) | (E0 & _ & _)]; rewrite E0.
  - rewrite append1_ok, bind_ret_l by (try reflexivity; lia).
    apply IH; try assumption; try lia; try reflexivity.
    destruct Hin as [E|Hin]; [subst c; discriminate E1 | exact Hin].
  - rewrite append1_ok, bind_ret_l by (try reflexivity; lia).
    rewrite functions_multi_control_z_raises by lia. reflexivity.
Qed.

(** C1.  For every [0 < N < 2^nqubits] other than [2^(nqubits-1)],
    [oracle_less_than(N, nqubits)] of functions_oracles.py builds no
    circuit: at the first 1-bit after the leading character it reaches
    [multi_control_z], whose call raises [TypeError]. *)
Theorem functions_oracle_less_than_raises (number nqubits : Z) (name : option str) :
  0 < number < 2 ^ nqubits ->
  number <> 2 ^ (nqubits - 1) ->
  functions_oracles.oracle_less_than number nqubits name = ([], Raise TypeError).
Proof.
  intros H Hne. pose proof (bit_length_fits _ _ H) as Hb.
  destruct (stripped_facts _ _ H) as (Hs & Hv & Hbin).
  unfold functions_oracles.oracle_less_than, oracle_less_than_body.
  replace (if truthy name then new_circuit nqubits name
           else new_circuit nqubits (Some (lit " < " ++ fmt_d number ++ lit " ")))
    with (ret (mkCircuit nqubits
                 (if truthy name then name
                  else Some (lit " < " ++ fmt_d number ++ lit " ")) []))
    by (destruct (truthy name); now rewrite new_circuit_ok by lia).
  rewrite bind_ret_l.
  rewrite to_binary_fits, !bind_ret_l by lia.
  fold (padded number nqubits).
  cbv zeta in Hs, Hv, Hbin. revert Hs Hv Hbin.
  destruct (rstrip "0" (padded number nqubits)) as [|first rest] eqn:Es;
    intros Hs Hv Hbin; [change (len (@nil ascii)) with 0 in Hs; lia|].
  rewrite len_cons in Hs. pose proof (len_nonneg rest) as Hr.
  apply Forall_cons_iff in Hbin as [Hfirst Hrest].
  cbn [first_char]. rewrite bind_ret_l.
  rewrite head_gates_ok, bind_ret_l by (simpl; lia).
  assert (Hin : In "1"%char rest).
  { destruct (exists_last (l := rest)) as (rest0 & a & Er).
    - intros ->. apply Hne. rewrite Hv. cbn [val].
      change (len (@nil ascii)) with 0. change (len [first]) with 1.
      destruct (binary_char_cases first Hfirst) as [(_ & _ & Eb) | (_ & _ & Eb)];
        rewrite Eb in *; cbn [Z.b2z] in *.
      + cbn [val] in Hv. rewrite Eb in Hv. simpl in Hv. lia.
      + change (2 ^ 0) with 1. lia.
    - subst rest. assert (Ha : a <> "0"%char).
      { apply (rstrip_last "0" a (padded number nqubits) (first :: rest0)).
        exact Es. }
      apply Forall_app in Hrest as [_ Ha']. inversion Ha' as [|? ? Hbc _]; subst.
      destruct Hbc as [-> | ->]; [contradiction|]. apply in_or_app. right. now left. }
  cbn [slice_from skipn]. unfold enumerate.
  rewrite functions_loop_raises; try assumption; try reflexivity; simpl; lia.
Qed.

Lemma functions_oracle_less_than_raises_witness :
  functions_oracles.oracle_less_than 3 2 None = ([], Raise TypeError).
Proof.
  apply (functions_oracle_less_than_raises 3 2 None); [simpl; lia | discriminate].
Defined.

(** The documented example, N = 42 on six qubits, raises as well. *)
Lemma functions_oracle_less_than_example_raises :
  functions_oracles.oracle_less_than 42 6 None = ([], Raise TypeError).
Proof. reflexivity. Qed.

(** For [N = 2^(nqubits-1)] no multi-controlled gate is needed and the
    circuit is the one sandwich on the top wire. *)
Lemma functions_oracle_less_than_half :
  functions_oracles.oracle_less_than 4 3 None =
  ret (mkCircuit 3 (Some (lit " < 4 "))
         [(XGate, [2]); (ZGate, [2]); (XGate, [2])]).
Proof. reflexivity. Qed.

(* ================================================================== *)
(** ** Further properties of the sources *)

(** *** [to_binary] *)

Lemma padded_facts_nonneg (number nbits : Z) :
  0 <= number -> Z.max 1 (bit_length number) <= nbits ->
  len (padded number nbits) = nbits /\
  val (padded number nbits) = number /\
  Forall binary_char (padded number nbits).
Proof.
  intros H0 Hb. unfold padded. rewrite binary_of_nonneg by lia.
  assert (Hz : Forall binary_char
                 (str_mul "0" (nbits - Z.max 1 (bit_length number)))).
  { apply Forall_forall. intros a Ha. apply repeat_spec in Ha. now left. }
  destruct number as [|p|p]; try lia.
  - change (bit_length 0) with 0 in *. change (Z.max 1 0) with 1 in *.
    unfold str_mul in *. repeat split.
    + rewrite len_app, len_repeat. change (len ["0"%char]) with 1. lia.
    + rewrite val_app, val_zeros. reflexivity.
    + apply Forall_app. split; [exact Hz|]. constructor; [now left | constructor].
  - assert (L : len (digits p) = bit_length (Z.pos p)).
    { rewrite len_digits. unfold bit_length. reflexivity. }
    assert (1 <= bit_length (Z.pos p)).
    { unfold bit_length. change (Z.pos p =? 0) with false. cbv iota.
      pose proof (Z.log2_nonneg (Z.pos p)). lia. }
    unfold str_mul in *. repeat split.
    + rewrite len_app, len_repeat, L. lia.
    + rewrite val_app, val_zeros, val_digits. lia.
    + apply Forall_app. split; [exact Hz | apply binary_digits].
Qed.

Lemma bit_length_bound (number nbits : Z) :
  0 <= number < 2 ^ nbits -> 1 <= nbits -> Z.max 1 (bit_length number) <= nbits.
Proof.
  intros H Hn. destruct (Z.eq_dec number 0) as [->|Hne].
  - change (bit_length 0) with 0. lia.
  - pose proof (bit_length_fits number nbits ltac:(lia)). lia.
Qed.

(** With a width that suffices, [to_binary] (the same in both files)
    prints nothing and returns a string of exactly [nbits] binary
    digits whose value is the number. *)
Theorem to_binary_round_trip (number nbits : Z) :
  0 <= number < 2 ^ nbits -> 1 <= nbits ->
  exists s,
    code_oracle.to_binary number (Some nbits) = ret (Some s) /\
    functions_oracles.to_binary number (Some nbits) = ret (Some s) /\
    len s = nbits /\ val s = number /\ Forall binary_char s.
Proof.
  intros H Hn. pose proof (bit_length_bound _ _ H Hn) as Hb.
  exists (padded number nbits).
  split; [apply to_binary_fits; lia|]. split; [apply to_binary_fits; lia|].
  apply padded_facts_nonneg; lia.
Qed.

Lemma to_binary_round_trip_witness :
  exists s,
    code_oracle.to_binary 5 (Some 6) = ret (Some s) /\
    functions_oracles.to_binary 5 (Some 6) = ret (Some s) /\
    len s = 6 /\ val s = 5 /\ Forall binary_char s.
Proof. apply (to_binary_round_trip 5 6); simpl; lia. Defined.

Lemma digits_head (p : positive) : exists t, digits p = "1"%char :: t.
Proof.
  induction p as [p [t IH]|p [t IH]|]; cbn [digits].
  - rewrite IH. now exists (t ++ ["1"%char]).
  - rewrite IH. now exists (t ++ ["0"%char]).
  - now exists [].
Qed.

(** Without a width, [to_binary] returns the shortest binary numeral
    of a positive number: its value is the number, its length the bit
    length, and it starts with a one. *)
Theorem to_binary_shortest (number : Z) :
  0 < number ->
  exists t,
    code_oracle.to_binary number None = ret (Some ("1"%char :: t)) /\
    functions_oracles.to_binary number None = ret (Some ("1"%char :: t)) /\
    val ("1"%char :: t) = number /\
    len ("1"%char :: t) = bit_length number /\
    Forall binary_char t.
Proof.
  intros H. destruct number as [|p|p]; try lia.
  destruct (digits_head p) as [t E]. exists t.
  assert (R : utilities.to_binary (Z.pos p) None = ret (Some ("1"%char :: t))).
  { unfold utilities.to_binary. rewrite binary_of_nonneg by lia. now rewrite E. }
  split; [exact R|]. split; [exact R|]. rewrite <- E.
  split; [apply val_digits|]. split.
  - rewrite len_digits. reflexivity.
  - pose proof (binary_digits p) as Hb. rewrite E in Hb.
    now apply Forall_cons_iff in Hb.
Qed.

Lemma to_binary_shortest_witness :
  exists t,
    code_oracle.to_binary 42 None = ret (Some ("1"%char :: t)) /\
    functions_oracles.to_binary 42 None = ret (Some ("1"%char :: t)) /\
    val ("1"%char :: t) = 42 /\
    len ("1"%char :: t) = bit_length 42 /\
    Forall binary_char t.
Proof. apply (to_binary_shortest 42). lia. Defined.

(** For a negative number the slice [bin(number)[2:]] drops the sign
    and keeps the letter of the prefix: the result is ['b'] followed by
    the binary numeral of the absolute value. *)
Theorem to_binary_negative (number : Z) :
  number < 0 ->
  exists t,
    code_oracle.to_binary number None = ret (Some ("b"%char :: t)) /\
    functions_oracles.to_binary number None = ret (Some ("b"%char :: t)) /\
    val t = - number /\ Forall binary_char t.
Proof.
  intros H. destruct number as [|p|p]; try lia.
  exists (digits p). repeat split; [apply val_digits | apply binary_digits].
Qed.

Lemma to_binary_negative_witness :
  exists t,
    code_oracle.to_binary (-5) None = ret (Some ("b"%char :: t)) /\
    functions_oracles.to_binary (-5) None = ret (Some ("b"%char :: t)) /\
    val t = - (-5) /\ Forall binary_char t.
Proof. apply (to_binary_negative (-5)). lia. Defined.

(** *** [oracle_less_than] outside the thresholds it serves *)

Lemma oracle_less_than_body_too_large mcz (number nqubits : Z) (name : option str) :
  0 <= nqubits -> 2 ^ nqubits <= number ->
  oracle_less_than_body mcz number nqubits name =
  ([lit "Error, nbits must be larger than " ++ fmt_d (bit_length number)
      ++ lit "."], Raise AttributeError).
Proof.
  intros Hn H.
  assert (Hp : 0 < 2 ^ nqubits) by (apply Z.pow_pos_nonneg; lia).
  assert (Hb : nqubits < bit_length number).
  { unfold bit_length.
    replace (number =? 0) with false by (symmetry; apply Z.eqb_neq; lia).
    apply Z.log2_le_pow2 in H; lia. }
  unfold oracle_less_than_body.
  replace (if truthy name then new_circuit nqubits name
           else new_circuit nqubits (Some (lit " < " ++ fmt_d number ++ lit " ")))
    with (ret (mkCircuit nqubits
                 (if truthy name then name
                  else Some (lit " < " ++ fmt_d number ++ lit " ")) []))
    by (destruct (truthy name); now rewrite new_circuit_ok by lia).
  rewrite bind_ret_l. unfold utilities.to_binary.
  rewrite len_binary by lia.
  replace (Z.max 1 (bit_length number)) with (bit_length number) by lia.
  replace (nqubits <? bit_length number) with true
    by (symmetry; apply Z.ltb_lt; lia).
  reflexivity.
Qed.

(** When the number needs more bits than there are qubits,
    [oracle_less_than] (either file) prints the error line of
    [to_binary] and then raises [AttributeError]: it calls [rstrip] on
    the [None] that [to_binary] returned. *)
Theorem oracle_less_than_too_large (number nqubits : Z) (name : option str) :
  0 <= nqubits -> 2 ^ nqubits <= number ->
  let outcome :=
    ([lit "Error, nbits must be larger than " ++ fmt_d (bit_length number)
        ++ lit "."], Raise AttributeError) in
  code_oracle.oracle_less_than number nqubits name = outcome /\
  functions_oracles.oracle_less_than number nqubits name = outcome.
Proof.
  intros Hn H outcome. split; now apply oracle_less_than_body_too_large.
Qed.

Lemma oracle_less_than_too_large_witness :
  code_oracle.oracle_less_than 8 3 None
  = ([lit "Error, nbits must be larger than 4."], Raise AttributeError) /\
  functions_oracles.oracle_less_than 8 3 None
  = ([lit "Error, nbits must be larger than 4."], Raise AttributeError).
Proof. apply (oracle_less_than_too_large 8 3 None); simpl; lia. Defined.

Lemma append_name (c c' : QuantumCircuit) op qargs out :
  append c op qargs = (out, Ok c') -> qiskit.name c' = qiskit.name c.
Proof.
  unfold append. destruct (negb (len qargs =? width op)); [discriminate|].
  intros H. apply bind_ok_inv in H as (o1 & qs & o2 & _ & H & _).
  destruct (negb (distinct qs)); [discriminate|].
  inversion H; subst. reflexivity.
Qed.

Lemma new_circuit_name (n : Z) nm out (c : QuantumCircuit) :
  new_circuit n nm = (out, Ok c) -> qiskit.name c = nm.
Proof.
  unfold new_circuit. destruct (n <? 0); [discriminate|].
  intros H. inversion H; subst. reflexivity.
Qed.

Lemma oracle_less_than_body_name mcz (number nqubits : Z) name out
      (c : QuantumCircuit) :
  oracle_less_than_body mcz number nqubits name = (out, Ok c) ->
  qiskit.name c = (if truthy name then name
                   else Some (lit " < " ++ fmt_d number ++ lit " ")).
Proof.
  unfold oracle_less_than_body. intros H.
  set (nm := if truthy name then name
             else Some (lit " < " ++ fmt_d number ++ lit " ")).
  apply bind_ok_inv in H as (o1 & c0 & o1' & H0 & H & _).
  assert (W0 : qiskit.name c0 = nm).
  { unfold nm. destruct (truthy name); now apply new_circuit_name in H0. }
  clear H0.
  apply bind_ok_inv in H as (o2 & nb & o2' & _ & H & _).
  apply bind_ok_inv in H as (o3 & s & o3' & _ & H & _).
  apply bind_ok_inv in H as (o4 & first & o4' & _ & H & _).
  apply bind_ok_inv in H as (o5 & c1 & o5' & H1 & H & _).
  assert (W1 : qiskit.name c1 = nm).
  { destruct (Ascii.eqb first "1").
    - apply bind_ok_inv in H1 as (? & ca & ? & Ha & H1 & _).
      apply bind_ok_inv in H1 as (? & cb & ? & Hb & H1 & _).
      apply append_name in Ha, Hb, H1. congruence.
    - apply append_name in H1. congruence. }
  clear H1.
  apply bind_ok_inv in H as (o6 & c2 & o6' & H2 & H & _).
  assert (W2 : qiskit.name c2 = nm).
  { eapply (for_each_invariant (fun c => qiskit.name c = nm));
      [|exact W1|exact H2].
    intros [position1 value] ca o cb Wa Hstep.
    destruct (Ascii.eqb value "0").
    - apply append_name in Hstep. congruence.
    - apply bind_ok_inv in Hstep as (? & cx & ? & Hx & Hstep & _).
      apply bind_ok_inv in Hstep as (? & mz & ? & _ & Hstep & _).
      apply bind_ok_inv in Hstep as (? & cy & ? & Hy & Hstep & _).
      apply append_name in Hx, Hstep, Hy. congruence. }
  clear H2.
  apply bind_ok_inv in H as (o7 & c3 & o7' & H3 & H & _).
  inversion H; subst c3.
  eapply (for_each_invariant (fun c => qiskit.name c = nm));
    [|exact W2|exact H3].
  intros [position value] ca o cb Wa Hstep.
  destruct (Ascii.eqb value "0").
  - apply append_name in Hstep. congruence.
  - inversion Hstep; subst; assumption.
Qed.

Lemma oracle_less_than_body_returns mcz (number nqubits : Z) name out
      (c : QuantumCircuit) :
  0 <= number ->
  oracle_less_than_body mcz number nqubits name = (out, Ok c) ->
  0 < number < 2 ^ nqubits /\
  num_qubits c = nqubits /\
  qiskit.name c = (if truthy name then name
                   else Some (lit " < " ++ fmt_d number ++ lit " ")).
Proof.
  intros H0 H.
  destruct (oracle_less_than_body_width _ _ _ _ _ _ H) as [W Hn].
  split; [|split; [exact W | now apply oracle_less_than_body_name in H]].
  split.
  - destruct (Z.eq_dec number 0) as [->|]; [|lia].
    rewrite oracle_less_than_body_zero in H by assumption. discriminate H.
  - destruct (Z.lt_ge_cases number (2 ^ nqubits)) as [|Hge]; [assumption|].
    rewrite oracle_less_than_body_too_large in H by lia. discriminate H.
Qed.

(** Whenever [oracle_less_than] (either file) returns for a
    non-negative number, the number lies strictly between 0 and
    [2^nqubits], and the circuit has exactly [nqubits] wires and bears
    the given name, or [' < number '] when the name is missing or
    empty. *)
Theorem oracle_less_than_returns_only_if (number nqubits : Z) name out
        (circuit : QuantumCircuit) :
  0 <= number ->
  code_oracle.oracle_less_than number nqubits name = (out, Ok circuit) \/
  functions_oracles.oracle_less_than number nqubits name = (out, Ok circuit) ->
  0 < number < 2 ^ nqubits /\
  num_qubits circuit = nqubits /\
  qiskit.name circuit = (if truthy name then name
                         else Some (lit " < " ++ fmt_d number ++ lit " ")).
Proof.
  intros H0 [H|H]; eapply oracle_less_than_body_returns; eauto.
Qed.

Lemma oracle_less_than_returns_only_if_witness :
  0 < 4 < 2 ^ 3 /\
  num_qubits (mkCircuit 3 (Some (lit " < 4 "))
                [(XGate, [2]); (ZGate, [2]); (XGate, [2])]) = 3 /\
  qiskit.name (mkCircuit 3 (Some (lit " < 4 "))
                 [(XGate, [2]); (ZGate, [2]); (XGate, [2])])
  = Some (lit " < " ++ fmt_d 4 ++ lit " ").
Proof.
  apply (oracle_less_than_returns_only_if 4 3 None []
           (mkCircuit 3 (Some (lit " < 4 "))
              [(XGate, [2]); (ZGate, [2]); (XGate, [2])])); [lia|].
  right. reflexivity.
Defined.

(** *** [multi_control_z] of code_oracle.py *)

Lemma hadamard_mcx_hadamard (j : Z) (cs : list Z) (t : Z) (psi : state) :
  0 <= t -> (forall q, In q cs -> 0 <= q /\ q <> t) ->
  exists phi,
    run [(HGate, [t]); (MCXGate j, cs ++ [t]); (HGate, [t])] psi = Some phi /\
    forall x, phi x = sgn (forallb (Z.testbit x) (cs ++ [t])) (psi x).
Proof.
  intros Ht Hcs. cbn [run]. rewrite apply_h, apply_mcx, apply_h.
  eexists. split; [reflexivity|]. intros x. cbv beta.
  rewrite forallb_app. cbn [forallb]. rewrite andb_true_r.
  rewrite !flip_flip, !testbit_flip_same, forallb_flip by assumption.
  generalize (psi x) (psi (flip x t)). intros [a1 a2] [b1 b2].
  destruct (forallb (Z.testbit x) cs), (Z.testbit x t); cbn [negb andb sgn];
    amp_field.
Qed.

(** For every [nqubits >= 2], [multi_control_z(nqubits)] of
    code_oracle.py returns a circuit of [nqubits] wires that is a
    multi-controlled Z: it negates the amplitude of exactly the basis
    indices with a one on every wire [0 .. nqubits-1] and leaves every
    other amplitude as it is. *)
Theorem code_multi_control_z_marks (nqubits : Z) :
  2 <= nqubits ->
  exists circuit,
    code_oracle.multi_control_z nqubits = ret circuit /\
    num_qubits circuit = nqubits /\
    forall psi, exists phi,
      run (data circuit) psi = Some phi /\
      forall x, phi x = if forallb (Z.testbit x) (range nqubits)
                        then aopp (psi x) else psi x.
Proof.
  intros Hk. exists (mcz_circuit nqubits).
  split; [now apply code_multi_control_z_ok|]. split; [reflexivity|].
  intros psi. unfold mcz_circuit. cbn [data].
  replace (range nqubits) with (range (nqubits - 1) ++ [nqubits - 1])
    by (rewrite <- range_snoc by lia; f_equal; lia).
  apply hadamard_mcx_hadamard; [lia|].
  intros q Hq. apply in_range in Hq. lia.
Qed.

Lemma code_multi_control_z_marks_witness :
  exists circuit,
    code_oracle.multi_control_z 3 = ret circuit /\
    num_qubits circuit = 3 /\
    forall psi, exists phi,
      run (data circuit) psi = Some phi /\
      forall x, phi x = if forallb (Z.testbit x) (range 3)
                        then aopp (psi x) else psi x.
Proof. apply (code_multi_control_z_marks 3). lia. Defined.

(** *** [diagonal_oracle_less_than] outside its range *)

Lemma len_array_less_than_outside (number N : Z) :
  0 <= N -> number < 0 \/ N < number ->
  N < len (functions_oracles.array_less_than number N).
Proof.
  intros HN H. unfold functions_oracles.array_less_than.
  rewrite len_app, !len_repeat. lia.
Qed.

(** For [nqubits >= 1] and a number below 0 or above [2^nqubits], the
    vector [array_less_than] builds is longer than [2^nqubits] and
    [diagonal_oracle_less_than] raises [CircuitError]: either the
    length is no power of two, or the diagonal gate is too wide for
    the circuit. *)
Theorem diagonal_oracle_less_than_out_of_range (number nqubits : Z)
        (name : option str) :
  1 <= nqubits -> number < 0 \/ 2 ^ nqubits < number ->
  functions_oracles.diagonal_oracle_less_than number nqubits name
  = ([], Raise CircuitError).
Proof.
  intros Hn H.
  assert (Hp : 0 < 2 ^ nqubits) by (apply Z.pow_pos_nonneg; lia).
  pose proof (len_array_less_than_outside number (2 ^ nqubits) ltac:(lia) H) as Hl.
  unfold functions_oracles.diagonal_oracle_less_than.
  replace (nqubits <? 0) with false by (symmetry; apply Z.ltb_ge; lia).
  rewrite bind_ret_l. unfold new_diagonal.
  set (v := functions_oracles.array_less_than number (2 ^ nqubits)) in *.
  destruct ((1 <=? Z.log2 (len v)) && (len v =? 2 ^ Z.log2 (len v))) eqn:E;
    [|reflexivity].
  apply andb_true_iff in E as [_ E]. apply Z.eqb_eq in E.
  rewrite bind_ret_l, new_circuit_ok, bind_ret_l by lia.
  unfold append. cbn [width]. rewrite len_range.
  assert (nqubits < Z.log2 (len v)).
  { destruct (Z.lt_ge_cases nqubits (Z.log2 (len v))) as [Hlt|Hge];
      [assumption|].
    exfalso. assert (2 ^ Z.log2 (len v) <= 2 ^ nqubits).
    { apply Z.pow_le_mono_r; [lia|assumption]. }
    lia. }
  replace (Z.max 0 nqubits =? Z.log2 (len v)) with false
    by (symmetry; apply Z.eqb_neq; lia).
  reflexivity.
Qed.

Lemma diagonal_oracle_less_than_out_of_range_witness :
  functions_oracles.diagonal_oracle_less_than 5 2 None = ([], Raise CircuitError).
Proof.
  apply (diagonal_oracle_less_than_out_of_range 5 2 None);
    [lia | right; simpl; lia].
Defined.

Lemma diagonal_oracle_less_than_marks_witness :
  exists circuit,
    functions_oracles.diagonal_oracle_less_than 3 2 None = ret circuit /\
    forall psi, exists phi,
      run (data circuit) psi = Some phi /\
      forall x, 0 <= x < 2 ^ 2 -> phi x = amul (phase_less_than 3 x) (psi x).
Proof.
  apply (diagonal_oracle_less_than_marks 3 2 None); simpl; lia.
Defined.

Lemma diagonal_matches_code_oracle_witness :
  exists diagonal circuit,
    functions_oracles.diagonal_oracle_less_than 5 3 None = ret diagonal /\
    code_oracle.oracle_less_than 5 3 None = ret circuit /\
    forall y, 0 <= y < 2 ^ 3 ->
      exists phi phi',
        run (data diagonal) (basis y) = Some phi /\
        run (data circuit) (basis y) = Some phi' /\
        forall x, 0 <= x < 2 ^ 3 -> phi x = phi' x.
Proof. apply (diagonal_matches_code_oracle 5 3). simpl. lia. Defined.

(** *** The one threshold functions_oracles.py serves: half the range *)

Lemma digits_pow2 (k : nat) :
  slice_from 2 (bin (2 ^ Z.of_nat k)) = "1"%char :: repeat "0"%char k.
Proof.
  assert (H : exists p, 2 ^ Z.of_nat k = Z.pos p /\
                        digits p = "1"%char :: repeat "0"%char k).
  { induction k as [|k (p & E & D)].
    - now exists 1%positive.
    - exists (p~0)%positive. split.
      + rewrite Nat2Z.inj_succ, Z.pow_succ_r, E by lia. reflexivity.
      + cbn [digits]. rewrite D. cbn [app]. f_equal.
        clear. induction k as [|k IH]; [reflexivity|].
        cbn [repeat app]. now rewrite IH. }
  destruct H as (p & E & D). rewrite E. exact D.
Qed.

Lemma lstrip_repeat_app (c : ascii) (k : nat) (s : str) :
  lstrip c (repeat c k ++ s) = lstrip c s.
Proof.
  induction k as [|k IH]; [reflexivity|].
  cbn [repeat app lstrip]. now rewrite Ascii.eqb_refl.
Qed.

Lemma rstrip_app_repeat (c : ascii) (s : str) (k : nat) :
  rstrip c (s ++ repeat c k) = rstrip c s.
Proof.
  unfold rstrip. now rewrite rev_app_distr, rev_repeat, lstrip_repeat_app.
Qed.

Lemma stripped_half (nqubits : Z) :
  1 <= nqubits ->
  rstrip "0" (padded (2 ^ (nqubits - 1)) nqubits) = ["1"%char].
Proof.
  intros Hn. unfold padded, bit_length.
  assert (Hp : 0 < 2 ^ (nqubits - 1)) by (apply Z.pow_pos_nonneg; lia).
  replace (2 ^ (nqubits - 1) =? 0) with false
    by (symmetry; apply Z.eqb_neq; lia).
  rewrite Z.log2_pow2 by lia.
  replace (nqubits - Z.max 1 (nqubits - 1 + 1)) with 0 by lia.
  cbn [str_mul Z.to_nat repeat app].
  replace (nqubits - 1) with (Z.of_nat (Z.to_nat (nqubits - 1))) by lia.
  rewrite digits_pow2.
  change ("1"%char :: repeat "0"%char (Z.to_nat (nqubits - 1)))
    with (["1"%char] ++ repeat "0"%char (Z.to_nat (nqubits - 1))).
  now rewrite rstrip_app_repeat.
Qed.

Lemma half_in_range (nqubits : Z) :
  1 <= nqubits -> 0 < 2 ^ (nqubits - 1) < 2 ^ nqubits.
Proof.
  intros Hn. split; [apply Z.pow_pos_nonneg; lia|].
  apply Z.pow_lt_mono_r; lia.
Qed.

(** For the threshold [2^(nqubits-1)] the loop over the later
    characters is empty, so no [multi_control_z] is called. *)
Lemma oracle_less_than_body_half mcz (nqubits : Z) (name : option str) :
  1 <= nqubits ->
  oracle_less_than_body mcz (2 ^ (nqubits - 1)) nqubits name =
  ret (mkCircuit nqubits
         (if truthy name then name
          else Some (lit " < " ++ fmt_d (2 ^ (nqubits - 1)) ++ lit " "))
         (top_sandwich nqubits)).
Proof.
  intros Hn. pose proof (half_in_range _ Hn) as H.
  pose proof (bit_length_fits _ _ H) as Hb.
  unfold oracle_less_than_body.
  replace (if truthy name then new_circuit nqubits name
           else new_circuit nqubits
                  (Some (lit " < " ++ fmt_d (2 ^ (nqubits - 1)) ++ lit " ")))
    with (ret (mkCircuit nqubits
                 (if truthy name then name
                  else Some (lit " < " ++ fmt_d (2 ^ (nqubits - 1)) ++ lit " "))
                 []))
    by (destruct (truthy name); now rewrite new_circuit_ok by lia).
  rewrite bind_ret_l.
  rewrite to_binary_fits, !bind_ret_l by lia.
  fold (padded (2 ^ (nqubits - 1)) nqubits). rewrite stripped_half by assumption.
  cbn [first_char]. rewrite bind_ret_l.
  rewrite head_gates_ok, bind_ret_l by (simpl; lia).
  cbn [slice_from skipn enumerate enumerate_from for_each].
  rewrite !bind_ret_l. cbn [enumerate enumerate_from for_each].
  change (Ascii.eqb "1" "0") with false. cbv iota.
  rewrite !bind_ret_l. reflexivity.
Qed.

Lemma top_sandwich_phase (nqubits : Z) (psi : state) :
  1 <= nqubits ->
  exists phi,
    run (top_sandwich nqubits) psi = Some phi /\
    forall x, 0 <= x < 2 ^ nqubits ->
              phi x = amul (phase_less_than (2 ^ (nqubits - 1)) x) (psi x).
Proof.
  intros Hn.
  destruct (oracle_gates_phase (2 ^ (nqubits - 1)) nqubits psi
              (half_in_range _ Hn)) as (phi & E & H).
  rewrite stripped_half in E by assumption.
  exists phi. split; [exact E | exact H].
Qed.

(** [oracle_less_than(2^(nqubits-1), nqubits)] of functions_oracles.py
    returns, and its circuit gives phase -1 to exactly the indices
    below the threshold. *)
Theorem functions_oracle_less_than_half_marks (nqubits : Z) :
  1 <= nqubits ->
  exists circuit,
    functions_oracles.oracle_less_than (2 ^ (nqubits - 1)) nqubits None
    = ret circuit /\
    forall psi, exists phi,
      run (data circuit) psi = Some phi /\
      forall x, 0 <= x < 2 ^ nqubits ->
                phi x = amul (phase_less_than (2 ^ (nqubits - 1)) x) (psi x).
Proof.
  intros Hn. eexists. split; [now apply oracle_less_than_body_half|].
  intros psi. cbn [data]. now apply top_sandwich_phase.
Qed.

Lemma functions_oracle_less_than_half_marks_witness :
  exists circuit,
    functions_oracles.oracle_less_than (2 ^ (3 - 1)) 3 None = ret circuit /\
    forall psi, exists phi,
      run (data circuit) psi = Some phi /\
      forall x, 0 <= x < 2 ^ 3 ->
                phi x = amul (phase_less_than (2 ^ (3 - 1)) x) (psi x).
Proof. apply (functions_oracle_less_than_half_marks 3). lia. Defined.

(** *** [oracle_greater_than] *)

Lemma append_tail_ok (c : QuantumCircuit) :
  1 <= num_qubits c ->
  (circuit <- z c 0 ;;
   circuit <- x circuit 0 ;;
   circuit <- z circuit 0 ;;
   circuit <- x circuit 0 ;;
   ret circuit) = ret (extend c phase_tail).
Proof.
  intros Hn. unfold z, x, phase_tail.
  rewrite append1_ok, bind_ret_l by (try reflexivity; lia).
  rewrite append1_ok, bind_ret_l by (try reflexivity; simpl; lia).
  rewrite append1_ok, bind_ret_l by (try reflexivity; simpl; lia).
  rewrite append1_ok, bind_ret_l by (try reflexivity; simpl; lia).
  now rewrite !extend_extend.
Qed.

Lemma oracle_greater_than_half_ok (nqubits : Z) :
  1 <= nqubits ->
  functions_oracles.oracle_greater_than (2 ^ (nqubits - 1) - 1) nqubits None =
  ret (mkCircuit nqubits
         (Some (lit " > " ++ fmt_d (2 ^ (nqubits - 1) - 1)))
         (top_sandwich nqubits ++ phase_tail)).
Proof.
  intros Hn. unfold functions_oracles.oracle_greater_than,
               functions_oracles.oracle_less_than.
  replace (2 ^ (nqubits - 1) - 1 + 1) with (2 ^ (nqubits - 1)) by lia.
  rewrite oracle_less_than_body_half, bind_ret_l by assumption.
  rewrite append_tail_ok by (simpl; lia). reflexivity.
Qed.

Lemma sandwich_then_tail_phase (nqubits : Z) (psi : state) :
  1 <= nqubits ->
  exists phi,
    run (top_sandwich nqubits ++ phase_tail) psi = Some phi /\
    forall x, 0 <= x < 2 ^ nqubits ->
              phi x = amul (phase_greater_than (2 ^ (nqubits - 1) - 1) x) (psi x).
Proof.
  intros Hn.
  destruct (top_sandwich_phase nqubits psi Hn) as (phi1 & E1 & H1).
  destruct (phase_tail_is_minus_identity phi1) as (phi2 & E2 & H2).
  exists phi2. rewrite run_app, E1. split; [exact E2|].
  intros x Hx. rewrite H2, H1 by assumption.
  unfold phase_greater_than, phase_less_than.
  destruct (Z.ltb_spec x (2 ^ (nqubits - 1))),
           (Z.ltb_spec (2 ^ (nqubits - 1) - 1) x); try lia;
    generalize (psi x); intros [a1 a2]; amp_field.
Qed.

(** [oracle_greater_than(2^(nqubits-1) - 1, nqubits)] returns, and its
    circuit gives phase -1 to exactly the indices above the threshold:
    the less-than oracle for the next number, then the sign flip of the
    Z, X, Z, X tail. *)
Theorem oracle_greater_than_half_marks (nqubits : Z) :
  1 <= nqubits ->
  exists circuit,
    functions_oracles.oracle_greater_than (2 ^ (nqubits - 1) - 1) nqubits None
    = ret circuit /\
    forall psi, exists phi,
      run (data circuit) psi = Some phi /\
      forall x, 0 <= x < 2 ^ nqubits ->
                phi x = amul (phase_greater_than (2 ^ (nqubits - 1) - 1) x) (psi x).
Proof.
  intros Hn. eexists. split; [now apply oracle_greater_than_half_ok|].
  intros psi. cbn [data]. now apply sandwich_then_tail_phase.
Qed.

Lemma oracle_greater_than_half_marks_witness :
  exists circuit,
    functions_oracles.oracle_greater_than (2 ^ (3 - 1) - 1) 3 None = ret circuit /\
    forall psi, exists phi,
      run (data circuit) psi = Some phi /\
      forall x, 0 <= x < 2 ^ 3 ->
                phi x = amul (phase_greater_than (2 ^ (3 - 1) - 1) x) (psi x).
Proof. apply (oracle_greater_than_half_marks 3). lia. Defined.

(** The less-than oracle of functions_oracles.py raises [TypeError]
    on every threshold that needs a multi-controlled Z. *)
Lemma functions_less_than_TypeError (number nqubits : Z) (name : option str) :
  0 < number < 2 ^ nqubits ->
  number <> 2 ^ (nqubits - 1) ->
  functions_oracles.oracle_less_than number nqubits name = ([], Raise TypeError).
Proof.
  intros H Hne. pose proof (bit_length_fits _ _ H) as Hb.
  destruct (stripped_facts _ _ H) as (Hs & Hv & Hbin).
  unfold functions_oracles.oracle_less_than, oracle_less_than_body.
  replace (if truthy name then new_circuit nqubits name
           else new_circuit nqubits (Some (lit " < " ++ fmt_d number ++ lit " ")))
    with (ret (mkCircuit nqubits
                 (if truthy name then name
                  else Some (lit " < " ++ fmt_d number ++ lit " ")) []))
    by (destruct (truthy name); now rewrite new_circuit_ok by lia).
  rewrite bind_ret_l.
  rewrite to_binary_fits, !bind_ret_l by lia.
  fold (padded number nqubits).
  cbv zeta in Hs, Hv, Hbin. revert Hs Hv Hbin.
  destruct (rstrip "0" (padded number nqubits)) as [|first rest] eqn:Es;
    intros Hs Hv Hbin; [change (len (@nil ascii)) with 0 in Hs; lia|].
  rewrite len_cons in Hs. pose proof (len_nonneg rest) as Hr.
  apply Forall_cons_iff in Hbin as [Hfirst Hrest].
  cbn [first_char]. rewrite bind_ret_l.
  rewrite head_gates_ok, bind_ret_l by (simpl; lia).
  assert (Hin : In "1"%char rest).
  { destruct (exists_last (l := rest)) as (rest0 & a & Er).
    - intros ->. apply Hne. rewrite Hv. cbn [val].
      change (len (@nil ascii)) with 0. change (len [first]) with 1.
      destruct (binary_char_cases first Hfirst) as [(_ & _ & Eb) | (_ & _ & Eb)];
        rewrite Eb in *; cbn [Z.b2z] in *.
      + cbn [val] in Hv. rewrite Eb in Hv. simpl in Hv. lia.
      + change (2 ^ 0) with 1. lia.
    - subst rest. assert (Ha : a <> "0"%char).
      { apply (rstrip_last "0" a (padded number nqubits) (first :: rest0)).
        exact Es. }
      apply Forall_app in Hrest as [_ Ha']. inversion Ha' as [|? ? Hbc _]; subst.
      destruct Hbc as [-> | ->]; [contradiction|]. apply in_or_app. right. now left. }
  cbn [slice_from skipn]. unfold enumerate.
  rewrite functions_loop_raises; try assumption; try reflexivity; simpl; lia.
Qed.

(** For every threshold [number >= 0] with [number + 1 < 2^nqubits]
    other than [2^(nqubits-1) - 1], [oracle_greater_than] raises
    [TypeError]: the failure of [oracle_less_than(number+1)] passes
    through, and no tail gate is appended. *)
Theorem oracle_greater_than_raises_TypeError (number nqubits : Z)
        (name : option str) :
  0 <= number -> number + 1 < 2 ^ nqubits ->
  number + 1 <> 2 ^ (nqubits - 1) ->
  functions_oracles.oracle_greater_than number nqubits name
  = ([], Raise TypeError).
Proof.
  intros H0 H1 Hne. unfold functions_oracles.oracle_greater_than.
  rewrite functions_less_than_TypeError by (assumption || lia). reflexivity.
Qed.

Lemma oracle_greater_than_raises_TypeError_witness :
  functions_oracles.oracle_greater_than 23 6 None = ([], Raise TypeError).
Proof.
  apply (oracle_greater_than_raises_TypeError 23 6 None);
    [lia | simpl; lia | discriminate].
Defined.

(** For a threshold of at least [2^nqubits - 1], the largest index,
    [oracle_greater_than] prints the error line of [to_binary] for
    [number + 1] and raises [AttributeError]: the oracle that marks
    nothing cannot be built. *)
Theorem oracle_greater_than_top (number nqubits : Z) (name : option str) :
  0 <= nqubits -> 2 ^ nqubits - 1 <= number ->
  functions_oracles.oracle_greater_than number nqubits name =
  ([lit "Error, nbits must be larger than " ++ fmt_d (bit_length (number + 1))
      ++ lit "."], Raise AttributeError).
Proof.
  intros Hn H. unfold functions_oracles.oracle_greater_than,
                 functions_oracles.oracle_less_than.
  rewrite oracle_less_than_body_too_large by lia. reflexivity.
Qed.

Lemma oracle_greater_than_top_witness :
  functions_oracles.oracle_greater_than 7 3 None =
  ([lit "Error, nbits must be larger than 4."], Raise AttributeError).
Proof. apply (oracle_greater_than_top 7 3 None); simpl; lia. Defined.

(** *** [oracle_interval] *)

(** For every upper boundary [0 < upper < 2^nqubits] other than
    [2^(nqubits-1)], [oracle_interval] raises [TypeError], whatever the
    lower boundary: its first step is [oracle_less_than(upper)]. *)
Theorem oracle_interval_raises_TypeError
        (lower_boundary upper_boundary nqubits : Z) (name : option str) :
  0 < upper_boundary < 2 ^ nqubits ->
  upper_boundary <> 2 ^ (nqubits - 1) ->
  functions_oracles.oracle_interval lower_boundary upper_boundary nqubits name
  = ([], Raise TypeError).
Proof.
  intros H Hne. pose proof (bit_length_fits _ _ H) as Hb.
  unfold functions_oracles.oracle_interval.
  rewrite new_circuit_ok, bind_ret_l by lia.
  rewrite functions_less_than_TypeError by assumption. reflexivity.
Qed.

Lemma oracle_interval_raises_TypeError_witness :
  functions_oracles.oracle_interval 25 42 6 None = ([], Raise TypeError).
Proof.
  apply (oracle_interval_raises_TypeError 25 42 6 None);
    [simpl; lia | discriminate].
Defined.

Lemma place_range_id (n i : Z) : 0 <= i < n -> place (range n) i = i.
Proof.
  intros H. unfold place, range. rewrite range3_up.
  transitivity (nth (Z.to_nat i)
                    (map (fun j => 0 + Z.of_nat j) (seq 0 (Z.to_nat (n - 0))))
                    (0 + Z.of_nat 0)); [reflexivity|].
  rewrite (map_nth (fun j => 0 + Z.of_nat j)), seq_nth by lia. lia.
Qed.

Lemma remap_range_top_sandwich (n : Z) :
  1 <= n -> map (remap (range n)) (top_sandwich n) = top_sandwich n.
Proof.
  intros Hn. unfold top_sandwich, remap. cbn [map fst snd].
  now rewrite place_range_id by lia.
Qed.

Lemma remap_range_phase_tail (n : Z) :
  1 <= n -> map (remap (range n)) phase_tail = phase_tail.
Proof.
  intros Hn. unfold phase_tail, remap. cbn [map fst snd].
  now rewrite place_range_id by lia.
Qed.

Lemma oracle_interval_empty_ok (nqubits : Z) :
  1 <= nqubits ->
  functions_oracles.oracle_interval (2 ^ (nqubits - 1) - 1) (2 ^ (nqubits - 1))
    nqubits None =
  ret (mkCircuit nqubits
         (Some (lit "(" ++ fmt_d (2 ^ (nqubits - 1) - 1) ++ lit ","
                ++ fmt_d (2 ^ (nqubits - 1)) ++ lit ")"))
         ([(Gate (Some (lit " < " ++ fmt_d (2 ^ (nqubits - 1)) ++ lit " "))
                 nqubits (top_sandwich nqubits), range nqubits);
           (Gate (Some (lit " > " ++ fmt_d (2 ^ (nqubits - 1) - 1)))
                 nqubits (top_sandwich nqubits ++ phase_tail), range nqubits)]
          ++ phase_tail)).
Proof.
  intros Hn. unfold functions_oracles.oracle_interval.
  rewrite new_circuit_ok, bind_ret_l by lia.
  unfold functions_oracles.oracle_less_than.
  rewrite oracle_less_than_body_half, bind_ret_l by assumption.
  assert (Hr : len (range nqubits) = nqubits) by (rewrite len_range; lia).
  rewrite append_ok, bind_ret_l;
    [| exact Hr | intros q Hq; now apply in_range in Hq | apply NoDup_range].
  rewrite oracle_greater_than_half_ok, bind_ret_l by assumption.
  rewrite append_ok, bind_ret_l;
    [| exact Hr | intros q Hq; now apply in_range in Hq | apply NoDup_range].
  rewrite append_tail_ok by (simpl; lia).
  rewrite !extend_extend. reflexivity.
Qed.

(** [oracle_interval(2^(nqubits-1) - 1, 2^(nqubits-1), nqubits)], the
    one pair of boundaries for which both inner oracles return, builds
    a circuit of [nqubits] wires that leaves every amplitude as it is:
    no index lies strictly between the boundaries, and the two sign
    flips cancel. *)
Theorem oracle_interval_empty (nqubits : Z) :
  1 <= nqubits ->
  exists circuit,
    functions_oracles.oracle_interval (2 ^ (nqubits - 1) - 1) (2 ^ (nqubits - 1))
      nqubits None = ret circuit /\
    num_qubits circuit = nqubits /\
    forall psi, exists phi,
      run (data circuit) psi = Some phi /\
      forall x, 0 <= x < 2 ^ nqubits -> phi x = psi x.
Proof.
  intros Hn. eexists. split; [now apply oracle_interval_empty_ok|].
  split; [reflexivity|]. intros psi. cbn [data].
  destruct (top_sandwich_phase nqubits psi Hn) as (phi1 & E1 & H1).
  destruct (sandwich_then_tail_phase nqubits phi1 Hn) as (phi2 & E2 & H2).
  destruct (phase_tail_is_minus_identity phi2) as (phi3 & E3 & H3).
  exists phi3. split.
  - cbn [app run].
    rewrite apply_gate_run, remap_range_top_sandwich, E1 by assumption.
    rewrite apply_gate_run, map_app, remap_range_top_sandwich,
      remap_range_phase_tail, E2 by assumption.
    exact E3.
  - intros x Hx. rewrite H3, H2, H1 by assumption.
    unfold phase_greater_than, phase_less_than.
    destruct (Z.ltb_spec x (2 ^ (nqubits - 1))),
             (Z.ltb_spec (2 ^ (nqubits - 1) - 1) x); try lia;
      generalize (psi x); intros [a1 a2]; amp_field.
Qed.

Lemma oracle_interval_empty_witness :
  exists circuit,
    functions_oracles.oracle_interval (2 ^ (3 - 1) - 1) (2 ^ (3 - 1)) 3 None
    = ret circuit /\
    num_qubits circuit = 3 /\
    forall psi, exists phi,
      run (data circuit) psi = Some phi /\
      forall x, 0 <= x < 2 ^ 3 -> phi x = psi x.
Proof. apply (oracle_interval_empty 3). lia. Defined.

(** *** [linear_mc_gate]: which calls return, and what they append *)

(** The unfolding of [linear_mc_gate] holds for an empty control list
    as well. *)
Lemma linear_mc_gate_steps gate (circuit : QuantumCircuit) (controls : list Z)
      (target : Z) :
  is_unitary gate = true ->
  let nqubits := len controls + 1 in
  linear_mc_gate.linear_mc_gate gate circuit controls target =
  (t <- resolve nqubits target ;;
   if t =? 0 then raise CircuitError
   else compose circuit
          (mkCircuit nqubits (Some (lit "MC_T" ++ fmt_d target))
                     (block_data gate nqubits t))
          (controls ++ [target])).
Proof.
  intros Hu nqubits. pose proof (len_nonneg controls) as Hc.
  unfold linear_mc_gate.linear_mc_gate. cbv zeta. fold nqubits.
  rewrite new_circuit_ok, bind_ret_l by (unfold nqubits; lia).
  rewrite build_P_gates_ok, bind_ret_l by (try assumption; simpl; lia).
  rewrite gate_U_pow_ok, bind_ret_l by assumption.
  unfold compose at 1.
  change (negb (len [0; target] =? _)) with false. cbv iota.
  cbn [resolve_all extend num_qubits].
  rewrite (resolve_in_range nqubits 0), bind_ret_l by (unfold nqubits; lia).
  destruct (resolve_cases nqubits target) as [(t & Et & Ht)|Et]; rewrite Et.
  2:{ reflexivity. }
  rewrite !bind_ret_l. cbn [distinct existsb].
  rewrite orb_false_r, andb_true_r, negb_involutive, Z.eqb_sym.
  destruct (t =? 0) eqn:E0; [reflexivity|].
  rewrite bind_ret_l.
  rewrite build_Q_gates_ok, bind_ret_l by (simpl; unfold nqubits; lia).
  rewrite build_P_gates_ok, bind_ret_l by (try assumption; simpl; lia).
  rewrite build_Q_gates_ok, bind_ret_l by (simpl; unfold nqubits; lia).
  rewrite !extend_extend. unfold extend, block_data, q_ladder. cbn [data num_qubits name].
  rewrite <- !app_assoc. reflexivity.
Qed.

(** Given a unitary [gate], [linear_mc_gate] raises [CircuitError]
    and appends nothing unless the caller's [target], read as an index
    into the fresh block of [len(controls)+1] wires, names a wire other
    than wire 0: that is, unless [1 <= target <= len(controls)] or
    [-len(controls) <= target <= -1]. *)
Theorem linear_mc_gate_rejects_target gate (circuit : QuantumCircuit)
        (controls : list Z) (target : Z) :
  is_unitary gate = true ->
  ~ (1 <= target <= len controls \/ - len controls <= target <= -1) ->
  linear_mc_gate.linear_mc_gate gate circuit controls target
  = ([], Raise CircuitError).
Proof.
  intros Hu H. rewrite linear_mc_gate_steps by assumption.
  pose proof (len_nonneg controls) as Hc.
  unfold resolve.
  destruct ((0 <=? target) && (target <? len controls + 1)) eqn:E1.
  - apply andb_true_iff in E1 as [H1 H2].
    apply Z.leb_le in H1. apply Z.ltb_lt in H2.
    rewrite bind_ret_l. replace (target =? 0) with true
      by (symmetry; apply Z.eqb_eq; lia).
    reflexivity.
  - destruct ((- (len controls + 1) <=? target) && (target <? 0)) eqn:E2;
      [|reflexivity].
    apply andb_true_iff in E2 as [H1 H2].
    apply Z.leb_le in H1. apply Z.ltb_lt in H2.
    rewrite bind_ret_l.
    replace (target + (len controls + 1) =? 0) with true
      by (symmetry; apply Z.eqb_eq; lia).
    reflexivity.
Qed.

Lemma linear_mc_gate_rejects_target_witness :
  linear_mc_gate.linear_mc_gate pauli_z (mkCircuit 6 None []) [0; 1] 5
  = ([], Raise CircuitError).
Proof.
  apply (linear_mc_gate_rejects_target pauli_z (mkCircuit 6 None []) [0; 1] 5);
    [reflexivity|].
  vm_compute. intros [[_ H]|[_ H]]; apply H; reflexivity.
Defined.

(** With no control wire and a unitary [gate], [linear_mc_gate] raises
    [CircuitError] for every target: the two-wire root gate does not
    fit the one-wire block. *)
Theorem linear_mc_gate_no_controls gate (circuit : QuantumCircuit) (target : Z) :
  is_unitary gate = true ->
  linear_mc_gate.linear_mc_gate gate circuit [] target = ([], Raise CircuitError).
Proof.
  intros Hu. rewrite linear_mc_gate_steps by assumption.
  change (len (@nil Z) + 1) with 1.
  destruct (resolve_cases 1 target) as [(t & Et & Ht)|Et]; rewrite Et;
    [|reflexivity].
  rewrite bind_ret_l. replace (t =? 0) with true
    by (symmetry; apply Z.eqb_eq; lia).
  reflexivity.
Qed.

Lemma linear_mc_gate_no_controls_witness :
  linear_mc_gate.linear_mc_gate pauli_z (mkCircuit 1 None []) [] 0
  = ([], Raise CircuitError).
Proof.
  apply (linear_mc_gate_no_controls pauli_z (mkCircuit 1 None []) 0). reflexivity.
Defined.

Lemma resolve_all_cases (n : Z) (qs : list Z) :
  (exists rs, resolve_all n qs = ret rs /\ len rs = len qs /\
              forall r, In r rs -> 0 <= r < n)
  \/ resolve_all n qs = raise CircuitError.
Proof.
  induction qs as [|q qs IH];
    [left; exists []; split; [reflexivity|]; split; [reflexivity|];
     intros r0 Hr0; destruct Hr0|].
  cbn [resolve_all].
  destruct (resolve_cases n q) as [(t & Et & Ht)|Et]; rewrite Et;
    [|now right].
  rewrite bind_ret_l.
  destruct IH as [(rs & Ers & Hl & Hr)|Ers]; rewrite Ers; [|now right].
  left. exists (t :: rs). rewrite !bind_ret_l. split; [reflexivity|].
  split; [rewrite !len_cons; lia|].
  intros r [<-|Hin]; auto.
Qed.

(** A returning call of [linear_mc_gate] with a non-empty control list
    leaves the circuit's width, name and earlier instructions as they
    were and appends one block: the direct P ladder, the root gate on
    block wires [0; t], the direct Q ladder over the control wires, the
    inverse P ladder and the inverse Q ladder, in this order, each
    instruction moved from block wire [i] to the caller's wire
    [(controls + [target])[i]]. *)
Theorem linear_mc_gate_appends_block gate (circuit : QuantumCircuit)
        (controls : list Z) (target : Z) out (circuit' : QuantumCircuit) :
  1 <= len controls ->
  linear_mc_gate.linear_mc_gate gate circuit controls target = (out, Ok circuit') ->
  exists qs t,
    resolve_all (num_qubits circuit) (controls ++ [target]) = ret qs /\
    resolve (len controls + 1) target = ret t /\
    num_qubits circuit' = num_qubits circuit /\
    qiskit.name circuit' = qiskit.name circuit /\
    data circuit' =
    data circuit
    ++ map (remap qs)
         (map (p_step gate (len controls + 1) false)
              (rev (ladder_controls (len controls + 1)))
          ++ [(controlled_root gate (pow2 (len controls + 1 - 2)) false, [0; t])]
          ++ q_ladder (len controls) false
          ++ map (p_step gate (len controls + 1) true)
                 (ladder_controls (len controls + 1))
          ++ q_ladder (len controls) true).
Proof.
  intros Hc H. pose proof (linear_mc_gate_returns_unitary _ _ _ _ _ _ H) as Hu.
  rewrite linear_mc_gate_steps in H by assumption. cbv zeta in H.
  destruct (resolve_cases (len controls + 1) target) as [(t & Et & _)|Et];
    rewrite Et in H; [|discriminate].
  rewrite bind_ret_l in H.
  destruct (t =? 0); [discriminate|].
  unfold compose in H.
  destruct (negb (len (controls ++ [target]) =? _)); [discriminate|].
  destruct (resolve_all_cases (num_qubits circuit) (controls ++ [target]))
    as [(qs & Eq & _)|Eq]; rewrite Eq in H; [|discriminate].
  rewrite bind_ret_l in H.
  destruct (negb (distinct qs)); [discriminate|].
  inversion H; subst. exists qs, t.
  split; [exact Eq|]. split; [exact Et|]. split; [reflexivity|].
  split; [reflexivity|]. cbn [data extend]. unfold block_data.
  replace (len controls + 1 - 1) with (len controls) by lia. reflexivity.
Qed.

Lemma linear_mc_gate_appends_block_witness :
  exists qs t,
    resolve_all (num_qubits (mkCircuit 3 None [])) ([0; 1] ++ [2]) = ret qs /\
    resolve (len [0; 1] + 1) 2 = ret t /\
    num_qubits mc_block_3 = num_qubits (mkCircuit 3 None []) /\
    qiskit.name mc_block_3 = qiskit.name (mkCircuit 3 None []) /\
    data mc_block_3 =
    data (mkCircuit 3 None [])
    ++ map (remap qs)
         (map (p_step pauli_z (len [0; 1] + 1) false)
              (rev (ladder_controls (len [0; 1] + 1)))
          ++ [(controlled_root pauli_z (pow2 (len [0; 1] + 1 - 2)) false, [0; t])]
          ++ q_ladder (len [0; 1]) false
          ++ map (p_step pauli_z (len [0; 1] + 1) true)
                 (ladder_controls (len [0; 1] + 1))
          ++ q_ladder (len [0; 1]) true).
Proof.
  apply (linear_mc_gate_appends_block pauli_z (mkCircuit 3 None []) [0; 1] 2
           [] mc_block_3); [vm_compute; discriminate | vm_compute; reflexivity].
Defined.

(** *** Size of the Q ladder *)

Lemma pair_list_empty (start m : Z) : m <= 1 -> 0 <= start -> pair_list start m = [].
Proof.
  intros Hm Hs. destruct (pair_list start m) as [|[c t] l] eqn:E; [reflexivity|].
  assert (Hin : In (linear_mc_gate.mk_qpairs c t) (pair_list start m))
    by (rewrite E; now left).
  apply in_pair_list in Hin; [lia | assumption].
Qed.

(** On a circuit of at least [nqubits] wires, for [nqubits] up to
    1025, [_build_Q_gates] returns and has appended exactly
    [(nqubits-1)^2] instructions, nothing at all when [nqubits <= 1]. *)
Theorem build_Q_gates_count (nqubits : Z) (circuit : QuantumCircuit) (inv : bool) :
  nqubits <= 1025 ->
  nqubits <= num_qubits circuit ->
  exists circuit',
    linear_mc_gate._build_Q_gates nqubits circuit inv = ret circuit' /\
    len (data circuit') =
    len (data circuit) + Z.max 0 (nqubits - 1) * Z.max 0 (nqubits - 1).
Proof.
  intros _ Hn. eexists. split; [now apply build_Q_gates_ok|].
  cbn [data extend]. rewrite len_app. f_equal.
  fold (q_ladder nqubits inv).
  destruct (Z.le_gt_cases 1 nqubits) as [H1|H1].
  - rewrite len_q_ladder by assumption.
    now replace (Z.max 0 (nqubits - 1)) with (nqubits - 1) by lia.
  - unfold q_ladder. rewrite len_app, !len_map, !sort_len.
    rewrite !pair_list_empty by (destruct inv; lia).
    replace (Z.max 0 (nqubits - 1)) with 0 by lia. reflexivity.
Qed.

Lemma build_Q_gates_count_witness :
  exists circuit',
    linear_mc_gate._build_Q_gates 4 (mkCircuit 4 None []) true = ret circuit' /\
    len (data circuit') =
    len (data (mkCircuit 4 None [])) + Z.max 0 (4 - 1) * Z.max 0 (4 - 1).
Proof.
  apply (build_Q_gates_count 4 (mkCircuit 4 None []) true); [lia | simpl; lia].
Defined.

(** *** The wires the less-than oracle of code_oracle.py touches *)

Lemma wires_oracle_gates (n : Z) (s : str) :
  1 <= len s <= n ->
  forall op qargs q,
    In (op, qargs) (oracle_gates n s) -> In q qargs -> n - len s <= q < n.
Proof.
  intros Hl op qargs q Hin Hq.
  destruct s as [|first rest];
    [change (len (@nil ascii)) with 0 in Hl; lia|].
  rewrite len_cons in Hl |- *. pose proof (len_nonneg rest) as Hr.
  unfold oracle_gates, enumerate in Hin. cbn [hd slice_from skipn] in Hin.
  apply in_app_or in Hin as [Hin|Hin]; [|apply in_app_or in Hin as [Hin|Hin]].
  - unfold head_gates in Hin. destruct (Ascii.eqb first "1"); simpl in Hin;
      repeat (destruct Hin as [Hin|Hin];
              [inversion Hin; subst; destruct Hq as [<-|[]]; lia|]);
      destruct Hin.
  - apply in_flat_map in Hin as ([p1 v] & Hp & Hin).
    apply in_enumerate_from in Hp as [Hp _].
    unfold step_gates in Hin. cbn [fst snd] in Hin.
    destruct (Ascii.eqb v "0"); simpl in Hin.
    + destruct Hin as [Hin|[]]. inversion Hin; subst.
      destruct Hq as [<-|[]]. lia.
    + destruct Hin as [Hin|[Hin|[Hin|[]]]]; inversion Hin; subst.
      * destruct Hq as [<-|[]]. lia.
      * apply in_range3_down in Hq. lia.
      * destruct Hq as [<-|[]]. lia.
  - apply in_flat_map in Hin as ([p v] & Hp & Hin).
    apply in_enumerate_from in Hp as [Hp _]. rewrite len_cons in Hp.
    unfold final_gates in Hin. cbn [fst snd] in Hin.
    destruct (Ascii.eqb v "0"); simpl in Hin; [|destruct Hin].
    destruct Hin as [Hin|[]]. inversion Hin; subst.
    destruct Hq as [<-|[]]. lia.
Qed.

Lemma stripped_ends_in_one (number nqubits : Z) :
  0 < number < 2 ^ nqubits ->
  exists t, rstrip "0" (padded number nqubits) = t ++ ["1"%char].
Proof.
  intros H. destruct (stripped_facts _ _ H) as (Hl & _ & Hb).
  cbv zeta in Hl, Hb.
  destruct (exists_last (l := rstrip "0" (padded number nqubits)))
    as (t & a & E).
  - intros E. rewrite E in Hl. change (len (@nil ascii)) with 0 in Hl. lia.
  - exists t. rewrite E. do 2 f_equal.
    pose proof (rstrip_last "0" a _ t E) as Ha.
    rewrite E in Hb. apply Forall_app in Hb as [_ Hb].
    inversion Hb as [|? ? Hc _]; subst. destruct Hc as [-> | ->];
      [contradiction | reflexivity].
Qed.

Lemma odd_times_pow2 (m j k : Z) :
  0 <= j -> 0 <= k -> (2 ^ k | (2 * m + 1) * 2 ^ j) -> k <= j.
Proof.
  intros Hj Hk [c Hc]. destruct (Z.le_gt_cases k j) as [|Hlt]; [assumption|].
  exfalso.
  assert (Hp : 0 < 2 ^ j) by (apply Z.pow_pos_nonneg; lia).
  replace k with ((k - j - 1) + 1 + j) in Hc by lia.
  rewrite !Z.pow_add_r in Hc by lia. change (2 ^ 1) with 2 in Hc.
  rewrite !Z.mul_assoc in Hc. apply Z.mul_reg_r in Hc; lia.
Qed.

(** The trailing zero bits of the threshold cost nothing: when [2^k]
    divides [N], no instruction of the circuit that
    [oracle_less_than(N, nqubits)] of code_oracle.py returns acts on a
    wire below [k], and none acts on a wire outside the circuit. *)
Theorem code_oracle_skips_low_wires (number nqubits k : Z) (name : option str) :
  0 < number < 2 ^ nqubits -> 0 <= k -> (2 ^ k | number) ->
  exists circuit,
    code_oracle.oracle_less_than number nqubits name = ret circuit /\
    forall op qargs q,
      In (op, qargs) (data circuit) -> In q qargs -> k <= q < nqubits.
Proof.
  intros H Hk Hdiv. eexists. split; [now apply code_oracle_less_than_gates|].
  cbn [data]. intros op qargs q Hin Hq.
  destruct (stripped_facts _ _ H) as (Hl & Hv & _). cbv zeta in Hl, Hv.
  destruct (stripped_ends_in_one _ _ H) as (t & Et).
  pose proof (wires_oracle_gates nqubits _ Hl op qargs q Hin Hq) as Hw.
  assert (k <= nqubits - len (rstrip "0" (padded number nqubits))).
  { apply (odd_times_pow2 (val t)); [lia | assumption |].
    rewrite Hv in Hdiv. rewrite Et in Hdiv at 1.
    rewrite val_app in Hdiv. change (2 ^ len ["1"%char]) with 2 in Hdiv.
    change (val ["1"%char]) with 1 in Hdiv.
    now replace (2 * val t + 1) with (val t * 2 + 1) by lia. }
  lia.
Qed.

Lemma code_oracle_skips_low_wires_witness :
  exists circuit,
    code_oracle.oracle_less_than 40 6 None = ret circuit /\
    forall op qargs q,
      In (op, qargs) (data circuit) -> In q qargs -> 3 <= q < 6.
Proof.
  apply (code_oracle_skips_low_wires 40 6 3 None);
    [simpl; lia | lia | exists 5; reflexivity].
Defined.
